(** * OFD file locks: a model of package [lock] (src/lock/lock.go)

    The package offers a [Locker] with a blocking [Lock], a one-shot
    [TryLock] and [Unlock], built on open-file-description locks.  Every
    function of the package is a sequence of calls into the Go runtime and
    the kernel ([filepath.Abs], [os.Stat], [os.OpenFile],
    [unix.FcntlFlock], [File.Close], [time.Sleep]).  The model keeps the
    package code as it is written and takes the operating system as an
    interface [OS]: each call is answered by the interface, may change the
    world, and is appended to a trace together with its answer. *)

From Stdlib Require Import ZArith String List Bool Lia.
Import ListNotations.
Open Scope string_scope.
Open Scope list_scope.
Open Scope Z_scope.

(** ** Errors *)

(** Go's [error] values, as far as the package builds or inspects them. *)
Inductive error : Type :=
| Errno (e : Z)                              (* syscall.Errno *)
| PathError (op path : string) (err : error) (* *os.PathError *)
| ErrInvalid                                 (* os.ErrInvalid *)
| ErrNotExist                                (* os.ErrNotExist *)
| ErrClosed                                  (* os.ErrClosed *)
| ErrLockLocked                              (* var ErrLockLocked, lock.go:34 *)
| errors_New (msg : string)                  (* errors.New of pkg/errors *)
| errors_Wrap (cause : error) (msg : string) (* errors.Wrap of pkg/errors *).

(** Linux values of the errno constants the package compares against. *)
Definition ENOENT : Z := 2.
Definition EBADF : Z := 9.
Definition EAGAIN : Z := 11.
Definition EWOULDBLOCK : Z := 11.
Definition EACCES : Z := 13.
Definition ENOLCK : Z := 37.

(** [os.underlyingError] and [os.IsNotExist]: the error below a
    [*PathError] is [ErrNotExist] or the errno [ENOENT]. *)
Definition underlyingError (err : error) : error :=
  match err with
  | PathError _ _ e => e
  | _ => err
  end.

Definition os_IsNotExist (err : error) : bool :=
  match underlyingError err with
  | ErrNotExist => true
  | Errno e => e =? ENOENT
  | _ => false
  end.

(** ** Data *)

(** [time.Duration] is a count of nanoseconds. *)
Definition Duration : Type := Z.
Definition Millisecond : Duration := 1000000.

(** [*os.File]: the descriptor and the name it was opened under. *)
Record File : Type := mkFile { Fd : Z; Name : string }.

(** What the package reads of an [os.FileInfo]. *)
Record FileInfo : Type := mkFileInfo { IsDir : bool }.

(** [unix.Flock_t]. *)
Record Flock_t : Type := mkFlock
  { Type_ : Z; Whence : Z; Start : Z; Len : Z; Pid : Z }.

Definition F_RDLCK : Z := 0.
Definition F_WRLCK : Z := 1.
Definition F_UNLCK : Z := 2.
Definition SeekStart : Z := 0.
Definition O_RDWR : Z := 2.

(** The constants of lock.go:14-31. *)
Definition defaultRetryInterval : Duration := 250 * Millisecond.
Definition F_OFD_GETLK : Z := 37.
Definition F_OFD_SETLK : Z := 37.
Definition F_OFD_SETLKW : Z := 38.

(** The fcntl commands of /usr/include/bits/fcntl-linux.h. *)
Definition linux_F_OFD_GETLK : Z := 36.
Definition linux_F_OFD_SETLK : Z := 37.
Definition linux_F_OFD_SETLKW : Z := 38.

(** [type Locker struct], lock.go:48-52.  A nil [*os.File] is [None]. *)
Record Locker : Type := mkLocker
  { path : string;
    file : option File;
    retryInterval : Duration }.

(** The literal [&unix.Flock_t{Type: unix.F_WRLCK, Whence: int16(io.SeekStart)}]
    of lock.go:76-79 and 116-119; the fields left out are zero. *)
Definition wrlck : Flock_t :=
  {| Type_ := F_WRLCK; Whence := SeekStart; Start := 0; Len := 0; Pid := 0 |}.

(** A lock record covers the whole file when it starts at offset 0 counted
    from the start of the file and has length 0, which fcntl reads as
    "up to the end of the file, however far it grows". *)
Definition whole_file (lk : Flock_t) : Prop :=
  Whence lk = SeekStart /\ Start lk = 0 /\ Len lk = 0.

(** ** The operating system *)

(** One call and its answer. *)
Inductive Event : Type :=
| EvAbs (p : string) (r : error + string)
| EvStat (name : string) (r : error + FileInfo)
| EvOpenFile (name : string) (flag perm : Z) (r : error + File)
| EvFcntlFlock (fd cmd : Z) (lk : Flock_t) (r : option Z)
| EvClose (f : File) (r : option error)
| EvSleep (d : Duration).

(** The calls the package makes.  [sys_fcntl] answers [None] for success
    and [Some e] for the errno [e]; [sys_close] answers [None] for a nil
    error. *)
Class OS (World : Type) : Type :=
  { sys_abs : string -> World -> (error + string) * World;
    sys_stat : string -> World -> (error + FileInfo) * World;
    sys_open : string -> Z -> Z -> World -> (error + File) * World;
    sys_fcntl : Z -> Z -> Flock_t -> World -> option Z * World;
    sys_close : File -> World -> option error * World;
    sys_sleep : Duration -> World -> World }.

Section Package.

Context {World : Type} {os : OS World}.

(** The state threaded through the package: the world and the calls made
    so far, oldest first. *)
Record State : Type := mkState { world : World; trace : list Event }.

(** A computation either finishes with a value and a state, or has not
    finished within the loop iterations it was given ([None]). *)
Definition M (A : Type) : Type := State -> option (A * State).

Definition ret {A} (a : A) : M A := fun s => Some (a, s).

Definition bind {A B} (m : M A) (k : A -> M B) : M B :=
  fun s => match m s with
           | Some (a, s') => k a s'
           | None => None
           end.

Definition out_of_fuel {A} : M A := fun _ => None.

Notation "x <- m ;; k" := (bind m (fun x => k))
  (at level 100, m at next level, right associativity).
Notation "m ;;; k" := (bind m (fun _ => k))
  (at level 100, right associativity).

(** A call: ask the world, log the call with its answer. *)
Definition call {A} (f : World -> A * World) (ev : A -> Event) : M A :=
  fun s => let (a, w) := f (world s) in
           Some (a, {| world := w; trace := trace s ++ [ev a] |}).

Definition filepath_Abs (p : string) : M (error + string) :=
  call (sys_abs p) (EvAbs p).

Definition os_Stat (name : string) : M (error + FileInfo) :=
  call (sys_stat name) (EvStat name).

Definition os_OpenFile (name : string) (flag perm : Z) : M (error + File) :=
  call (sys_open name flag perm) (EvOpenFile name flag perm).

Definition unix_FcntlFlock (fd cmd : Z) (lk : Flock_t) : M (option Z) :=
  call (sys_fcntl fd cmd lk) (EvFcntlFlock fd cmd lk).

(** [File.Close] of package os: a nil receiver is answered [ErrInvalid]
    by the method itself, before anything reaches the kernel. *)
Definition File_Close (f : option File) : M (option error) :=
  match f with
  | None => ret (Some ErrInvalid)
  | Some f => call (sys_close f) (EvClose f)
  end.

Definition time_Sleep (d : Duration) : M unit :=
  call (fun w => (tt, sys_sleep d w)) (fun _ => EvSleep d).

(** ** The package *)

(** [func New], lock.go:38-46. *)
Definition New (path : string) (retryInterval : Duration) : Locker :=
  let retryInterval :=
    if retryInterval =? 0 then defaultRetryInterval else retryInterval in
  {| path := path; file := None; retryInterval := retryInterval |}.

(** The [for] loop of [Lock], lock.go:75-88.  It answers [None] when it
    leaves through [break] and [Some err] when it leaves through
    [return]. *)
Fixpoint Lock_for (fuel : nat) (l : Locker) (file : File) : M (option error) :=
  match fuel with
  | O => out_of_fuel
  | S fuel =>
      err <- unix_FcntlFlock (Fd file) F_OFD_SETLK wrlck ;;
      match err with
      | None => ret None
      | Some e =>
          if negb (e =? EWOULDBLOCK) then
            File_Close (Some file) ;;;
            ret (Some (errors_Wrap (Errno e) "lock failed"))
          else
            time_Sleep (retryInterval l) ;;;
            Lock_for fuel l file
      end
  end.

(** [func (l *Locker) Lock], lock.go:56-93.  The answer is the returned
    error ([None] for nil) and the Locker as the call leaves it. *)
Definition Lock (fuel : nat) (l : Locker) : M (option error * Locker) :=
  r <- filepath_Abs (path l) ;;
  match r with
  | inl err =>
      ret (Some (errors_Wrap err "absolute represenation of path failed"), l)
  | inr abs =>
      r <- os_Stat abs ;;
      match r with
      | inl err =>
          if os_IsNotExist err then
            ret (Some (errors_Wrap err "path doesn't exist"), l)
          else
            ret (Some (errors_Wrap err "stat failed"), l)
      | inr fi =>
          if IsDir fi then
            ret (Some (errors_New "directory not allowed"), l)
          else
            r <- os_OpenFile abs O_RDWR 432 (* 0660 *) ;;
            match r with
            | inl err => ret (Some (errors_Wrap err "open failed"), l)
            | inr file =>
                r <- Lock_for fuel l file ;;
                match r with
                | Some err => ret (Some err, l)
                | None =>
                    ret (None, {| path := abs;
                                  file := Some file;
                                  retryInterval := retryInterval l |})
                end
            end
      end
  end.

(** [func (l *Locker) TryLock], lock.go:97-130. *)
Definition TryLock (l : Locker) : M (option error * Locker) :=
  r <- filepath_Abs (path l) ;;
  match r with
  | inl err => ret (Some (errors_Wrap err "abs failed"), l)
  | inr abs =>
      r <- os_Stat abs ;;
      match r with
      | inl err =>
          if os_IsNotExist err then
            ret (Some (errors_Wrap err "path doesn't exist"), l)
          else
            ret (Some (errors_Wrap err "stat failed"), l)
      | inr fi =>
          if IsDir fi then
            ret (Some (errors_New "directories are not allowed"), l)
          else
            r <- os_OpenFile abs O_RDWR 432 (* 0660 *) ;;
            match r with
            | inl err => ret (Some (errors_Wrap err "open failed"), l)
            | inr file =>
                err <- unix_FcntlFlock (Fd file) F_OFD_SETLK wrlck ;;
                match err with
                | Some e =>
                    if (e =? EAGAIN) || (e =? EWOULDBLOCK) then
                      ret (Some ErrLockLocked, l)
                    else
                      ret (Some (Errno e), l)
                | None =>
                    ret (None, {| path := abs;
                                  file := Some file;
                                  retryInterval := retryInterval l |})
                end
            end
      end
  end.

(** [func (l *Locker) Unlock], lock.go:134-140. *)
Definition Unlock (l : Locker) : M (option error * Locker) :=
  err <- File_Close (file l) ;;
  match err with
  | Some err => ret (Some (errors_Wrap err "close failed"), l)
  | None => ret (None, l)
  end.

End Package.

Arguments State World : clear implicits.
Arguments M World A : clear implicits.

(** ** Vocabulary of the properties *)

Section Vocabulary.

Context {World : Type} {os : OS World}.

(** An acquisition attempt: the blocking [Lock], run for at most [fuel]
    iterations of its loop, or the one-shot [TryLock]. *)
Inductive attempt : Type :=
| ByLock (fuel : nat)
| ByTryLock.

Definition acquire (a : attempt) (l : Locker)
  : M World (option error * Locker) :=
  match a with
  | ByLock fuel => Lock fuel l
  | ByTryLock => TryLock l
  end.

(** The Locker after a successful acquisition, lock.go:89-90 and 126-127. *)
Definition committed (l : Locker) (abs : string) (f : File) : Locker :=
  {| path := abs; file := Some f; retryInterval := retryInterval l |}.

(** Why an attempt stopped before its first lock request. *)
Inductive refusal : Type :=
| Unresolved (err : error)
| NotFound (err : error)
| StatFailed (err : error)
| IsDirectory
| OpenFailed (err : error).

(** The checks both [Lock] (lock.go:57-74) and [TryLock] (lock.go:98-115)
    start with, up to and including the open. *)
Definition prologue (l : Locker) (s : State World)
  : (refusal + string * File) * State World :=
  let (r, w1) := sys_abs (path l) (world s) in
  let t1 := trace s ++ [EvAbs (path l) r] in
  match r with
  | inl err => (inl (Unresolved err), mkState w1 t1)
  | inr abs =>
      let (r, w2) := sys_stat abs w1 in
      let t2 := t1 ++ [EvStat abs r] in
      match r with
      | inl err =>
          (inl (if os_IsNotExist err then NotFound err else StatFailed err),
           mkState w2 t2)
      | inr fi =>
          if IsDir fi then (inl IsDirectory, mkState w2 t2)
          else
            let (r, w3) := sys_open abs O_RDWR 432 w2 in
            let t3 := t2 ++ [EvOpenFile abs O_RDWR 432 r] in
            match r with
            | inl err => (inl (OpenFailed err), mkState w3 t3)
            | inr f => (inr (abs, f), mkState w3 t3)
            end
      end
  end.

(** The error each function returns for a refusal. *)
Definition refusal_error (a : attempt) (r : refusal) : error :=
  match r with
  | Unresolved err =>
      errors_Wrap err
        match a with
        | ByLock _ => "absolute represenation of path failed"
        | ByTryLock => "abs failed"
        end
  | NotFound err => errors_Wrap err "path doesn't exist"
  | StatFailed err => errors_Wrap err "stat failed"
  | IsDirectory =>
      errors_New
        match a with
        | ByLock _ => "directory not allowed"
        | ByTryLock => "directories are not allowed"
        end
  | OpenFailed err => errors_Wrap err "open failed"
  end.

(** [Lock] from the head of its loop to its return, lock.go:75-92. *)
Definition Lock_from_loop (fuel : nat) (l : Locker) (abs : string) (f : File)
  (s : State World) : option (option error * Locker * State World) :=
  match Lock_for fuel l f s with
  | None => None
  | Some (Some err, s') => Some (Some err, l, s')
  | Some (None, s') => Some (None, committed l abs f, s')
  end.

(** The state after one more call. *)
Definition logged (s : State World) (w : World) (evs : list Event)
  : State World :=
  {| world := w; trace := trace s ++ evs |}.

(** The lock request of lock.go:76 and 116 on [f], and the world in which
    the [n]-th retry is made when every request before it would block. *)
Definition request (f : File) (w : World) : option Z * World :=
  sys_fcntl (Fd f) F_OFD_SETLK wrlck w.

Fixpoint retry_world (n : nat) (l : Locker) (f : File) (w : World) : World :=
  match n with
  | O => w
  | S n => retry_world n l f (sys_sleep (retryInterval l) (snd (request f w)))
  end.

(** The first [n] requests on [f] all answer would-block. *)
Fixpoint blocked (n : nat) (l : Locker) (f : File) (w : World) : bool :=
  match n with
  | O => true
  | S n =>
      match fst (request f w) with
      | Some e =>
          (e =? EWOULDBLOCK) &&
          blocked n l f (sys_sleep (retryInterval l) (snd (request f w)))
      | None => false
      end
  end.

(** The calls of [n] blocked iterations of the loop. *)
Fixpoint retries (n : nat) (l : Locker) (f : File) : list Event :=
  match n with
  | O => []
  | S n =>
      EvFcntlFlock (Fd f) F_OFD_SETLK wrlck (Some EWOULDBLOCK)
      :: EvSleep (retryInterval l) :: retries n l f
  end.

(** Kinds of calls. *)
Definition is_open (ev : Event) : bool :=
  match ev with EvOpenFile _ _ _ _ => true | _ => false end.
Definition is_close (ev : Event) : bool :=
  match ev with EvClose _ _ => true | _ => false end.
Definition is_fcntl (ev : Event) : bool :=
  match ev with EvFcntlFlock _ _ _ _ => true | _ => false end.

(** The lock request as the claims describe it: on [f], the non-blocking
    OFD command, an exclusive write lock over the whole file. *)
Definition exclusive_whole_file_request (f : File) (ev : Event) : Prop :=
  match ev with
  | EvFcntlFlock fd cmd lk _ =>
      fd = Fd f /\ cmd = linux_F_OFD_SETLK /\ Type_ lk = F_WRLCK /\
      whole_file lk
  | _ => True
  end.

(** A life of a Locker: calls in order, and what each returned. *)
Inductive op : Type :=
| OpLock (fuel : nat)
| OpTryLock
| OpUnlock.

Definition exec (o : op) (l : Locker) : M World (option error * Locker) :=
  match o with
  | OpLock fuel => Lock fuel l
  | OpTryLock => TryLock l
  | OpUnlock => Unlock l
  end.

Fixpoint run (ops : list op) (l : Locker) (s : State World)
  : option (list (op * option error) * Locker * State World) :=
  match ops with
  | [] => Some ([], l, s)
  | o :: ops =>
      match exec o l s with
      | None => None
      | Some (r, l', s') =>
          match run ops l' s' with
          | None => None
          | Some (log, l'', s'') => Some ((o, r) :: log, l'', s'')
          end
      end
  end.

(** An entry of the log that is a successful acquisition. *)
Definition acquired (e : op * option error) : bool :=
  match e with
  | (OpLock _, None) | (OpTryLock, None) => true
  | _ => false
  end.

Definition present {A} (o : option A) : bool :=
  match o with Some _ => true | None => false end.

Definition is_sleep (ev : Event) : bool :=
  match ev with EvSleep _ => true | _ => false end.

(** The time spent in [time.Sleep] by a list of calls. *)
Fixpoint slept (evs : list Event) : Z :=
  match evs with
  | [] => 0
  | EvSleep d :: evs => d + slept evs
  | _ :: evs => slept evs
  end.

(** The calls of a refused prologue, by refusal. *)
Definition refused_calls (l : Locker) (ref : refusal) (evs : list Event)
  : Prop :=
  match ref with
  | Unresolved e => evs = [EvAbs (path l) (inl e)]
  | NotFound e | StatFailed e =>
      exists abs, evs = [EvAbs (path l) (inr abs); EvStat abs (inl e)]
  | IsDirectory =>
      exists abs fi,
        IsDir fi = true /\
        evs = [EvAbs (path l) (inr abs); EvStat abs (inr fi)]
  | OpenFailed e =>
      exists abs fi,
        IsDir fi = false /\
        evs = [EvAbs (path l) (inr abs); EvStat abs (inr fi);
               EvOpenFile abs O_RDWR 432 (inl e)]
  end.

(** The calls of a prologue that passed. *)
Definition opened_calls (l : Locker) (abs : string) (fi : FileInfo) (f : File)
  : list Event :=
  [EvAbs (path l) (inr abs); EvStat abs (inr fi);
   EvOpenFile abs O_RDWR 432 (inr f)].

(** Errors made by pkg/errors, as opposed to errnos and sentinels. *)
Definition is_pkg_error (err : error) : bool :=
  match err with
  | errors_New _ | errors_Wrap _ _ => true
  | _ => false
  end.

(** The Locker [l] with another value in its file field. *)
Definition with_file (l : Locker) (f0 : option File) : Locker :=
  {| path := path l; file := f0; retryInterval := retryInterval l |}.

End Vocabulary.

(** ** A reference kernel

    A small executable instance of [OS], used to run the package on
    concrete files: a flat file system, the table of open file
    descriptions of this process, the write locks they hold, and the write
    locks held by other processes. *)
Module Kernel.

Inductive node : Type := RegularFile | Directory.

Record World : Type := mkWorld
  { cwd : string;                        (* "" when getwd fails *)
    fs : list (string * node);
    no_search : list string;             (* stat answers EACCES *)
    read_only : list string;             (* open for writing answers EACCES *)
    next_fd : Z;
    open_files : list (Z * string);      (* descriptor, path *)
    ofd_locks : list (string * Z);       (* path, descriptor holding it *)
    foreign : list (string * option Z);  (* path, time of release if any *)
    now : Z;
    lock_table_full : bool }.

Fixpoint lookup {A B} (eqb : A -> A -> bool) (k : A) (m : list (A * B))
  : option B :=
  match m with
  | [] => None
  | (k', v) :: m => if eqb k k' then Some v else lookup eqb k m
  end.

Definition mem (k : string) (m : list string) : bool :=
  existsb (String.eqb k) m.

Definition abs (p : string) (w : World) : (error + string) * World :=
  if String.prefix "/" p then (inr p, w)
  else if String.eqb (cwd w) "" then (inl (Errno ENOENT), w)
  else (inr (cwd w ++ "/" ++ p)%string, w).

Definition stat (name : string) (w : World) : (error + FileInfo) * World :=
  if mem name (no_search w) then
    (inl (PathError "stat" name (Errno EACCES)), w)
  else
    match lookup String.eqb name (fs w) with
    | None => (inl (PathError "stat" name (Errno ENOENT)), w)
    | Some Directory => (inr {| IsDir := true |}, w)
    | Some RegularFile => (inr {| IsDir := false |}, w)
    end.

Definition open (name : string) (flag perm : Z) (w : World)
  : (error + File) * World :=
  match lookup String.eqb name (fs w) with
  | None => (inl (PathError "open" name (Errno ENOENT)), w)
  | Some _ =>
      if mem name (read_only w) then
        (inl (PathError "open" name (Errno EACCES)), w)
      else
        (inr {| Fd := next_fd w; Name := name |},
         mkWorld (cwd w) (fs w) (no_search w) (read_only w)
                 (next_fd w + 1) ((next_fd w, name) :: open_files w)
                 (ofd_locks w) (foreign w) (now w) (lock_table_full w))
  end.

(** Is the path write-locked by another process, or by another open file
    description of this process? *)
Definition held_elsewhere (name : string) (fd : Z) (w : World) : bool :=
  match lookup String.eqb name (foreign w) with
  | Some None => true
  | Some (Some t) => now w <? t
  | None => false
  end
  || match lookup String.eqb name (ofd_locks w) with
     | Some fd' => negb (fd' =? fd)
     | None => false
     end.

Definition fcntl (fd cmd : Z) (lk : Flock_t) (w : World) : option Z * World :=
  match lookup Z.eqb fd (open_files w) with
  | None => (Some EBADF, w)
  | Some name =>
      if lock_table_full w then (Some ENOLCK, w)
      else if negb ((cmd =? linux_F_OFD_SETLK) && (Type_ lk =? F_WRLCK)) then
        (Some 22, w)
      else if held_elsewhere name fd w then (Some EAGAIN, w)
      else
        (None,
         mkWorld (cwd w) (fs w) (no_search w) (read_only w)
                 (next_fd w) (open_files w)
                 ((name, fd) :: ofd_locks w) (foreign w) (now w)
                 (lock_table_full w))
  end.

Definition close (f : File) (w : World) : option error * World :=
  match lookup Z.eqb (Fd f) (open_files w) with
  | None => (Some (PathError "close" (Name f) ErrClosed), w)
  | Some _ =>
      (None,
       mkWorld (cwd w) (fs w) (no_search w) (read_only w) (next_fd w)
               (filter (fun o => negb (fst o =? Fd f)) (open_files w))
               (filter (fun o => negb (snd o =? Fd f)) (ofd_locks w))
               (foreign w) (now w) (lock_table_full w))
  end.

Definition sleep (d : Duration) (w : World) : World :=
  mkWorld (cwd w) (fs w) (no_search w) (read_only w) (next_fd w)
          (open_files w) (ofd_locks w) (foreign w) (now w + d)
          (lock_table_full w).

#[export] Instance kernel : OS World :=
  {| sys_abs := abs;
     sys_stat := stat;
     sys_open := open;
     sys_fcntl := fcntl;
     sys_close := close;
     sys_sleep := sleep |}.

(** A machine with one lock file and one directory; nobody holds a lock. *)
Definition idle : World :=
  {| cwd := "/run";
     fs := [("/run/x.lock", RegularFile); ("/run/dir", Directory);
            ("/run/ro.lock", RegularFile); ("/run/hidden", RegularFile)];
     no_search := ["/run/hidden"];
     read_only := ["/run/ro.lock"];
     next_fd := 3;
     open_files := [];
     ofd_locks := [];
     foreign := [];
     now := 0;
     lock_table_full := false |}.

(** The same machine while another process holds the lock on x.lock, until
    time [t] or for ever. *)
Definition contended (t : option Z) : World :=
  mkWorld (cwd idle) (fs idle) (no_search idle) (read_only idle)
          (next_fd idle) (open_files idle) (ofd_locks idle)
          [("/run/x.lock", t)] (now idle) (lock_table_full idle).

(** The same machine with an exhausted lock table. *)
Definition exhausted : World :=
  mkWorld (cwd idle) (fs idle) (no_search idle) (read_only idle)
          (next_fd idle) (open_files idle) (ofd_locks idle)
          (foreign idle) (now idle) true.

(** The same machine when the working directory cannot be read. *)
Definition lost : World :=
  mkWorld "" (fs idle) (no_search idle) (read_only idle)
          (next_fd idle) (open_files idle) (ofd_locks idle)
          (foreign idle) (now idle) (lock_table_full idle).

Definition boot (w : World) : State World := {| world := w; trace := [] |}.

(** A Locker on x.lock, the file it gets on this machine, and the state
    in which its first lock request is made. *)
Definition x_lock : Locker := New "x.lock" 0.
Definition x_abs : string := "/run/x.lock".
Definition x_file : File := {| Fd := 3; Name := "/run/x.lock" |}.
Definition opened (w : World) : State World := snd (prologue x_lock (boot w)).

(** The world of [opened (contended None)] at time [t]. *)
Definition waiting (t : Z) : World :=
  mkWorld (cwd idle) (fs idle) (no_search idle) (read_only idle)
          4 [(3, "/run/x.lock")] [] [("/run/x.lock", None)] t false.

(** The state of x_lock after [Lock] on the idle machine, and after an
    [Unlock] that follows. *)
Definition x_locked : Locker := committed x_lock x_abs x_file.

Definition after (ops : list op) (w : World) : State World :=
  match run ops x_lock (boot w) with
  | Some (_, _, s) => s
  | None => boot w
  end.

End Kernel.

(** ** Properties *)

Section Properties.

Context {World : Type} {os : OS World}.

Implicit Types (l : Locker) (s : State World) (f : File) (a : attempt).

(** Both acquisition functions run the prologue and differ after it. *)
Lemma Lock_prologue fuel l s :
  Lock fuel l s =
  match prologue l s with
  | (inl r, s1) => Some (Some (refusal_error (ByLock fuel) r), l, s1)
  | (inr (abs, f), s1) => Lock_from_loop fuel l abs f s1
  end.
Proof.
  unfold Lock, prologue, Lock_from_loop, bind, ret, filepath_Abs, os_Stat,
    os_OpenFile, call.
  destruct (sys_abs (path l) (world s)) as [[e|abs] w1]; cbn; [reflexivity|].
  destruct (sys_stat abs w1) as [[e|fi] w2]; cbn.
  { destruct (os_IsNotExist e); reflexivity. }
  destruct (IsDir fi); cbn; [reflexivity|].
  destruct (sys_open abs O_RDWR 432 w2) as [[e|f] w3]; cbn; [reflexivity|].
  destruct (Lock_for fuel l f _) as [[[e|] s']|]; reflexivity.
Qed.

Lemma TryLock_prologue l s :
  TryLock l s =
  match prologue l s with
  | (inl r, s1) => Some (Some (refusal_error ByTryLock r), l, s1)
  | (inr (abs, f), s1) =>
      let (r, w) := request f (world s1) in
      Some (match r with
            | Some e =>
                (Some (if (e =? EAGAIN) || (e =? EWOULDBLOCK)
                       then ErrLockLocked else Errno e), l)
            | None => (None, committed l abs f)
            end,
            logged s1 w [EvFcntlFlock (Fd f) F_OFD_SETLK wrlck r])
  end.
Proof.
  unfold TryLock, prologue, request, logged, bind, ret, filepath_Abs, os_Stat,
    os_OpenFile, unix_FcntlFlock, call.
  destruct (sys_abs (path l) (world s)) as [[e|abs] w1]; cbn; [reflexivity|].
  destruct (sys_stat abs w1) as [[e|fi] w2]; cbn.
  { destruct (os_IsNotExist e); reflexivity. }
  destruct (IsDir fi); cbn; [reflexivity|].
  destruct (sys_open abs O_RDWR 432 w2) as [[e|f] w3]; cbn; [reflexivity|].
  destruct (sys_fcntl (Fd f) F_OFD_SETLK wrlck w3) as [[e|] w4]; cbn;
    [destruct ((e =? EAGAIN) || (e =? EWOULDBLOCK))|]; reflexivity.
Qed.

Lemma logged_logged s w evs w' evs' :
  logged (logged s w evs) w' evs' = logged s w' (evs ++ evs').
Proof. unfold logged; cbn. now rewrite app_assoc. Qed.

Lemma logged_nil s : logged s (world s) [] = s.
Proof. destruct s; unfold logged; cbn. now rewrite app_nil_r. Qed.

(** One iteration of the loop of [Lock]. *)
Lemma Lock_for_step fuel l f s :
  Lock_for (S fuel) l f s =
  match request f (world s) with
  | (None, w) =>
      Some (None, logged s w [EvFcntlFlock (Fd f) F_OFD_SETLK wrlck None])
  | (Some e, w) =>
      if e =? EWOULDBLOCK then
        Lock_for fuel l f
          (logged s (sys_sleep (retryInterval l) w)
             [EvFcntlFlock (Fd f) F_OFD_SETLK wrlck (Some e);
              EvSleep (retryInterval l)])
      else
        let (c, w') := sys_close f w in
        Some (Some (errors_Wrap (Errno e) "lock failed"),
              logged s w' [EvFcntlFlock (Fd f) F_OFD_SETLK wrlck (Some e);
                           EvClose f c])
  end.
Proof.
  cbn [Lock_for].
  unfold request, logged, bind, ret, unix_FcntlFlock, File_Close, time_Sleep,
    call.
  destruct (sys_fcntl (Fd f) F_OFD_SETLK wrlck (world s)) as [[e|] w]; cbn;
    [|reflexivity].
  destruct (e =? EWOULDBLOCK); cbn.
  - now rewrite <- app_assoc.
  - destruct (sys_close f w) as [c w']; cbn. now rewrite <- app_assoc.
Qed.

(** While the requests block, the loop goes round. *)
Lemma Lock_for_blocked n fuel l f :
  forall s,
    blocked n l f (world s) = true ->
    Lock_for (n + fuel) l f s =
    Lock_for fuel l f (logged s (retry_world n l f (world s)) (retries n l f)).
Proof.
  induction n as [|n IH]; intros s Hb.
  - cbn. now rewrite logged_nil.
  - cbn [blocked] in Hb. rewrite Nat.add_succ_l, Lock_for_step.
    destruct (request f (world s)) as [[e|] w] eqn:Hreq; cbn in Hb;
      [|discriminate].
    apply andb_prop in Hb as [He Hb]. rewrite He.
    apply Z.eqb_eq in He; subst e.
    rewrite IH by exact Hb. rewrite logged_logged. cbn [retry_world retries].
    rewrite Hreq. reflexivity.
Qed.

(** A run of the loop that returns went round some [n] blocked iterations
    and returned in the next one, whose request did not block. *)
Lemma Lock_for_inv fuel l f :
  forall s r s',
    Lock_for fuel l f s = Some (r, s') ->
    exists n,
      (n < fuel)%nat /\
      blocked n l f (world s) = true /\
      let w := retry_world n l f (world s) in
      fst (request f w) <> Some EWOULDBLOCK /\
      Lock_for 1 l f (logged s w (retries n l f)) = Some (r, s').
Proof.
  induction fuel as [|fuel IH]; intros s r s' H; [discriminate|].
  pose proof H as H1. rewrite Lock_for_step in H1.
  destruct (request f (world s)) as [[e|] w] eqn:Hreq.
  - destruct (e =? EWOULDBLOCK) eqn:He.
    + apply Z.eqb_eq in He; subst e.
      apply IH in H1 as (n & Hn & Hb & Hne & Hlast).
      exists (S n). cbn [blocked retry_world retries]. rewrite Hreq.
      cbn [fst snd]. rewrite Z.eqb_refl. cbn in Hb, Hne, Hlast |- *.
      repeat split; [lia|exact Hb|exact Hne|].
      rewrite logged_logged in Hlast. exact Hlast.
    + exists O. cbn [blocked retry_world retries]. rewrite logged_nil, Hreq.
      repeat split; [lia| |].
      * cbn. intros [= ->]. now rewrite Z.eqb_refl in He.
      * rewrite Lock_for_step, Hreq, He. exact H1.
  - exists O. cbn [blocked retry_world retries]. rewrite logged_nil, Hreq.
    repeat split; [lia|cbn; discriminate|].
    rewrite Lock_for_step, Hreq. exact H1.
Qed.

(** The calls of a run of the loop that returns: [n] blocked iterations,
    then a granted request, or a request refused for another reason and
    the close of the file. *)
Lemma Lock_for_trace fuel l f s r s' :
  Lock_for fuel l f s = Some (r, s') ->
  exists n,
    (n < fuel)%nat /\
    blocked n l f (world s) = true /\
    let w := retry_world n l f (world s) in
    match request f w with
    | (None, w') =>
        r = None /\
        s' = logged s w'
               (retries n l f ++ [EvFcntlFlock (Fd f) F_OFD_SETLK wrlck None])
    | (Some e, w') =>
        e <> EWOULDBLOCK /\
        r = Some (errors_Wrap (Errno e) "lock failed") /\
        s' = logged s (snd (sys_close f w'))
               (retries n l f ++
                [EvFcntlFlock (Fd f) F_OFD_SETLK wrlck (Some e);
                 EvClose f (fst (sys_close f w'))])
    end.
Proof.
  intros H. apply Lock_for_inv in H as (n & Hn & Hb & Hne & Hlast).
  exists n. repeat split; [exact Hn|exact Hb|]. cbn zeta.
  rewrite Lock_for_step in Hlast. cbn [world logged] in Hlast.
  destruct (request f (retry_world n l f (world s))) as [[e|] w'].
  - destruct (e =? EWOULDBLOCK) eqn:He.
    + apply Z.eqb_eq in He; subst e. now destruct Hne.
    + apply Z.eqb_neq in He.
      destruct (sys_close f w') as [c w'']. injection Hlast as <- <-.
      rewrite logged_logged. now repeat split.
  - injection Hlast as <- <-. rewrite logged_logged. now split.
Qed.

Lemma retries_requests n l f :
  Forall (exclusive_whole_file_request f) (retries n l f).
Proof.
  induction n as [|n IH]; cbn [retries]; [constructor|].
  constructor; [|constructor; [exact I|exact IH]].
  cbn. unfold whole_file. now repeat split.
Qed.

(** C1.  When the checks and the open of [Lock] have passed, [Lock] is its
    loop from that state on.  In each iteration the loop asks fcntl, with
    the non-blocking OFD command, for an exclusive write lock on the whole
    file: if the lock is granted [Lock] stores the absolute path and the
    file in the Locker and returns nil; if the request would block [Lock]
    sleeps for [retryInterval] and goes round again; on any other errno it
    closes the file and returns that errno wrapped as "lock failed", the
    Locker untouched.  Every fcntl call of a returning run has this
    shape. *)
Theorem Lock_request_loop l s abs f s1 :
  prologue l s = (inr (abs, f), s1) ->
  (forall fuel, Lock fuel l s = Lock_from_loop fuel l abs f s1) /\
  (forall fuel s2 w,
      request f (world s2) = (None, w) ->
      Lock_from_loop (S fuel) l abs f s2 =
      Some (None, committed l abs f,
            logged s2 w [EvFcntlFlock (Fd f) F_OFD_SETLK wrlck None])) /\
  (forall fuel s2 w,
      request f (world s2) = (Some EWOULDBLOCK, w) ->
      Lock_from_loop (S fuel) l abs f s2 =
      Lock_from_loop fuel l abs f
        (logged s2 (sys_sleep (retryInterval l) w)
           [EvFcntlFlock (Fd f) F_OFD_SETLK wrlck (Some EWOULDBLOCK);
            EvSleep (retryInterval l)])) /\
  (forall fuel s2 e w,
      request f (world s2) = (Some e, w) ->
      e <> EWOULDBLOCK ->
      Lock_from_loop (S fuel) l abs f s2 =
      Some (Some (errors_Wrap (Errno e) "lock failed"), l,
            logged s2 (snd (sys_close f w))
              [EvFcntlFlock (Fd f) F_OFD_SETLK wrlck (Some e);
               EvClose f (fst (sys_close f w))])) /\
  (forall fuel r l' s',
      Lock fuel l s = Some (r, l', s') ->
      exists evs,
        trace s' = trace s1 ++ evs /\
        Exists (fun ev => is_fcntl ev = true) evs /\
        Forall (exclusive_whole_file_request f) evs).
Proof.
  intros Hp.
  assert (HL : forall fuel, Lock fuel l s = Lock_from_loop fuel l abs f s1).
  { intros fuel. now rewrite Lock_prologue, Hp. }
  split; [exact HL|]. repeat split.
  - intros fuel s2 w Hr. unfold Lock_from_loop.
    now rewrite Lock_for_step, Hr.
  - intros fuel s2 w Hr. unfold Lock_from_loop.
    now rewrite Lock_for_step, Hr.
  - intros fuel s2 e w Hr He. unfold Lock_from_loop.
    rewrite Lock_for_step, Hr. apply Z.eqb_neq in He. rewrite He.
    now destruct (sys_close f w).
  - intros fuel r l' s' H. rewrite HL in H. unfold Lock_from_loop in H.
    destruct (Lock_for fuel l f s1) as [[r0 s0]|] eqn:Hfor; [|discriminate].
    assert (s0 = s') as -> by (destruct r0; congruence).
    apply Lock_for_trace in Hfor as (n & _ & _ & Hlast). cbn zeta in Hlast.
    destruct (request f (retry_world n l f (world s1))) as [[e|] w'].
    + destruct Hlast as (_ & _ & ->). eexists. split; [reflexivity|]. split.
      * apply Exists_app. right. now constructor.
      * apply Forall_app. split; [apply retries_requests|].
        repeat constructor; cbn; unfold whole_file; now repeat split.
    + destruct Hlast as (_ & ->). eexists. split; [reflexivity|]. split.
      * apply Exists_app. right. now constructor.
      * apply Forall_app. split; [apply retries_requests|].
        repeat constructor; cbn; unfold whole_file; now repeat split.
Qed.

(** C2.  [TryLock] runs the checks and the open of [Lock]: whenever they
    refuse, both functions return at the same point, in the same state and
    with the Locker untouched; whenever they pass, both reach their lock
    request with the same file in the same state.  [TryLock] then makes
    exactly one request.  Answered EAGAIN or EWOULDBLOCK it returns
    [ErrLockLocked]; answered any other errno it returns that errno as it
    is; granted, it stores the absolute path and the file as [Lock] does,
    and [Lock] returns the very same result. *)
Theorem TryLock_one_request l s :
  (forall ref s1,
      prologue l s = (inl ref, s1) ->
      TryLock l s = Some (Some (refusal_error ByTryLock ref), l, s1) /\
      forall fuel,
        Lock fuel l s = Some (Some (refusal_error (ByLock fuel) ref), l, s1)) /\
  (forall abs f s1 r w,
      prologue l s = (inr (abs, f), s1) ->
      request f (world s1) = (r, w) ->
      (forall fuel, Lock fuel l s = Lock_from_loop fuel l abs f s1) /\
      exists res l',
        TryLock l s =
        Some (res, l',
              logged s1 w [EvFcntlFlock (Fd f) F_OFD_SETLK wrlck r]) /\
        (forall e, r = Some e -> e = EAGAIN \/ e = EWOULDBLOCK ->
                   res = Some ErrLockLocked /\ l' = l) /\
        (forall e, r = Some e -> e <> EAGAIN -> e <> EWOULDBLOCK ->
                   res = Some (Errno e) /\ res <> Some ErrLockLocked /\
                   l' = l) /\
        (r = None ->
         res = None /\ l' = committed l abs f /\
         forall fuel, Lock (S fuel) l s = TryLock l s)).
Proof.
  split.
  - intros ref s1 Hp. split; [|intros fuel].
    + now rewrite TryLock_prologue, Hp.
    + now rewrite Lock_prologue, Hp.
  - intros abs f s1 r w Hp Hr. split.
    { intros fuel. now rewrite Lock_prologue, Hp. }
    rewrite TryLock_prologue, Hp, Hr. destruct r as [e|].
    + do 2 eexists. split; [reflexivity|]. split; [|split].
      * intros e' [= <-] [->| ->]; now split.
      * intros e' [= <-] H1 H2.
        apply Z.eqb_neq in H1, H2. rewrite H1, H2.
        repeat split; discriminate.
      * discriminate.
    + do 2 eexists. split; [reflexivity|]. split; [|split].
      * discriminate.
      * discriminate.
      * intros _. split; [reflexivity|]. split; [reflexivity|].
        intros fuel. rewrite Lock_prologue, Hp. unfold Lock_from_loop.
        now rewrite Lock_for_step, Hr.
Qed.

(** The prologue passes when the three calls succeed on a path that is not
    a directory, and then it has made exactly these three calls. *)
Lemma prologue_opened l s abs f s1 :
  prologue l s = (inr (abs, f), s1) ->
  exists fi w1 w2,
    sys_abs (path l) (world s) = (inr abs, w1) /\
    sys_stat abs w1 = (inr fi, w2) /\
    IsDir fi = false /\
    sys_open abs O_RDWR 432 w2 = (inr f, world s1) /\
    trace s1 = trace s ++ [EvAbs (path l) (inr abs); EvStat abs (inr fi);
                           EvOpenFile abs O_RDWR 432 (inr f)].
Proof.
  unfold prologue.
  destruct (sys_abs (path l) (world s)) as [[e|abs'] w1] eqn:Habs;
    [discriminate|].
  destruct (sys_stat abs' w1) as [[e|fi] w2] eqn:Hstat; [discriminate|].
  destruct (IsDir fi) eqn:Hdir; [discriminate|].
  destruct (sys_open abs' O_RDWR 432 w2) as [[e|f'] w3] eqn:Hopen;
    [discriminate|].
  intros [= <- <- <-]. exists fi, w1, w2. cbn.
  rewrite <- !app_assoc. now repeat split.
Qed.

(** Every run of the prologue starts by resolving the configured path. *)
Lemma prologue_first l s x s1 :
  prologue l s = (x, s1) ->
  exists ans evs, trace s1 = trace s ++ EvAbs (path l) ans :: evs.
Proof.
  unfold prologue.
  destruct (sys_abs (path l) (world s)) as [[e|abs] w1].
  { intros [= <- <-]. now do 2 eexists. }
  destruct (sys_stat abs w1) as [[e|fi] w2].
  { intros [= <- <-]. cbn. rewrite <- !app_assoc. now do 2 eexists. }
  destruct (IsDir fi).
  { intros [= <- <-]. cbn. rewrite <- !app_assoc. now do 2 eexists. }
  destruct (sys_open abs O_RDWR 432 w2) as [[e|f] w3];
    intros [= <- <-]; cbn; rewrite <- !app_assoc; now do 2 eexists.
Qed.

Lemma Lock_from_loop_grows fuel l abs f s1 r l' s' :
  Lock_from_loop fuel l abs f s1 = Some (r, l', s') ->
  exists evs, trace s' = trace s1 ++ evs.
Proof.
  unfold Lock_from_loop.
  destruct (Lock_for fuel l f s1) as [[r0 s0]|] eqn:Hfor; [|discriminate].
  intros H. assert (s0 = s') as -> by (destruct r0; congruence).
  apply Lock_for_trace in Hfor as (n & _ & _ & Hlast). cbn zeta in Hlast.
  destruct (request f (retry_world n l f (world s1))) as [[e|] w'].
  - destruct Hlast as (_ & _ & ->). now eexists.
  - destruct Hlast as (_ & ->). now eexists.
Qed.

Lemma acquire_first_call a l s r l' s' :
  acquire a l s = Some (r, l', s') ->
  exists ans evs, trace s' = trace s ++ EvAbs (path l) ans :: evs.
Proof.
  destruct (prologue l s) as [[ref|[abs f]] s1] eqn:Hp;
    pose proof (prologue_first _ _ _ _ Hp) as (ans & evs & Ht).
  - destruct a as [fuel|]; cbn [acquire];
      rewrite ?Lock_prologue, ?TryLock_prologue, Hp;
      intros [= <- <- <-]; now exists ans, evs.
  - destruct a as [fuel|]; cbn [acquire].
    + rewrite Lock_prologue, Hp. intros H.
      apply Lock_from_loop_grows in H as (evs' & ->). rewrite Ht.
      rewrite <- app_assoc. cbn. now do 2 eexists.
    + rewrite TryLock_prologue, Hp.
      destruct (request f (world s1)) as [[e|] w]; intros [= <- <- <-];
        cbn; rewrite Ht, <- app_assoc; cbn; now do 2 eexists.
Qed.

(** An attempt that returns either failed and left the Locker alone, or
    passed the prologue, had its last lock request granted and stored the
    absolute path and the file. *)
Lemma acquire_cases a l s r l' s' :
  acquire a l s = Some (r, l', s') ->
  (exists err, r = Some err /\ l' = l) \/
  (r = None /\ exists abs f s1 evs,
      prologue l s = (inr (abs, f), s1) /\
      l' = committed l abs f /\
      trace s' = trace s1 ++ evs ++
                 [EvFcntlFlock (Fd f) F_OFD_SETLK wrlck None]).
Proof.
  intros H.
  destruct (prologue l s) as [[ref|[abs f]] s1] eqn:Hp.
  - left. destruct a as [fuel|]; cbn [acquire] in H;
      rewrite ?Lock_prologue, ?TryLock_prologue, Hp in H;
      injection H as <- <- <-; now eexists.
  - destruct a as [fuel|]; cbn [acquire] in H.
    + rewrite Lock_prologue, Hp in H. unfold Lock_from_loop in H.
      destruct (Lock_for fuel l f s1) as [[[err|] s0]|] eqn:Hfor;
        [| |discriminate]; injection H as <- <- <-.
      * left. now eexists.
      * right. split; [reflexivity|].
        apply Lock_for_trace in Hfor as (n & _ & _ & Hlast).
        cbn zeta in Hlast.
        destruct (request f (retry_world n l f (world s1))) as [[e|] w'].
        { now destruct Hlast as (_ & [=] & _). }
        destruct Hlast as (_ & ->).
        exists abs, f, s1, (retries n l f). now repeat split.
    + rewrite TryLock_prologue, Hp in H.
      destruct (request f (world s1)) as [[e|] w]; injection H as <- <- <-.
      * left. now eexists.
      * right. split; [reflexivity|].
        exists abs, f, s1, []. now repeat split.
Qed.

(** C3.  An attempt that returns an error leaves the Locker, and so its
    path, as it was, and a later attempt starts again from the configured
    path.  An attempt returns nil exactly when it stores the absolute
    path, and by then the path has been resolved and checked, the file
    opened, and the last lock request granted. *)
Theorem failed_attempt_keeps_path a l s r l' s' :
  acquire a l s = Some (r, l', s') ->
  (forall err,
      r = Some err ->
      path l' = path l /\
      forall a2 r2 l2 s2,
        acquire a2 l' s' = Some (r2, l2, s2) ->
        exists ans evs, trace s2 = trace s' ++ EvAbs (path l) ans :: evs) /\
  (r = None ->
   exists abs fi f evs,
     path l' = abs /\
     file l' = Some f /\
     IsDir fi = false /\
     trace s' =
     trace s ++
     [EvAbs (path l) (inr abs); EvStat abs (inr fi);
      EvOpenFile abs O_RDWR 432 (inr f)] ++
     evs ++ [EvFcntlFlock (Fd f) F_OFD_SETLK wrlck None]).
Proof.
  intros H. apply acquire_cases in H as Hcases.
  split.
  - intros err ->. destruct Hcases as [(err' & _ & ->)|([=] & _)].
    split; [reflexivity|]. intros a2 r2 l2 s2 H2.
    exact (acquire_first_call _ _ _ _ _ _ H2).
  - intros ->. destruct Hcases as [(err' & [=] & _)|(_ & Hok)].
    destruct Hok as (abs & f & s1 & evs & Hp & -> & Ht).
    apply prologue_opened in Hp as (fi & w1 & w2 & _ & _ & Hdir & _ & Ht1).
    exists abs, fi, f, evs. repeat split; [exact Hdir|].
    rewrite Ht, Ht1, <- app_assoc. reflexivity.
Qed.

(** C4.  When the path cannot be made absolute the attempt returns that
    error wrapped; when stat fails it returns the error wrapped as "path
    doesn't exist" if [os.IsNotExist] says so and as "stat failed"
    otherwise; when the path is a directory it returns a new error.  In
    all three cases the Locker is untouched and the calls made are the
    ones listed, none of them an open. *)
Theorem precondition_failures a l s :
  (forall e w1,
      sys_abs (path l) (world s) = (inl e, w1) ->
      exists msg,
        acquire a l s =
        Some (Some (errors_Wrap e msg), l,
              logged s w1 [EvAbs (path l) (inl e)])) /\
  (forall abs w1 e w2,
      sys_abs (path l) (world s) = (inr abs, w1) ->
      sys_stat abs w1 = (inl e, w2) ->
      acquire a l s =
      Some (Some (errors_Wrap e (if os_IsNotExist e
                                 then "path doesn't exist"
                                 else "stat failed")), l,
            logged s w2 [EvAbs (path l) (inr abs); EvStat abs (inl e)])) /\
  (forall abs w1 fi w2,
      sys_abs (path l) (world s) = (inr abs, w1) ->
      sys_stat abs w1 = (inr fi, w2) ->
      IsDir fi = true ->
      exists msg,
        acquire a l s =
        Some (Some (errors_New msg), l,
              logged s w2 [EvAbs (path l) (inr abs); EvStat abs (inr fi)])).
Proof.
  split; [|split].
  - intros e w1 Habs.
    destruct a as [fuel|]; eexists; cbn [acquire];
      rewrite ?Lock_prologue, ?TryLock_prologue; unfold prologue;
      rewrite Habs; reflexivity.
  - intros abs w1 e w2 Habs Hstat.
    destruct a as [fuel|]; cbn [acquire];
      rewrite ?Lock_prologue, ?TryLock_prologue; unfold prologue, logged;
      rewrite Habs, Hstat, <- app_assoc;
      destruct (os_IsNotExist e); reflexivity.
  - intros abs w1 fi w2 Habs Hstat Hdir.
    destruct a as [fuel|]; eexists; cbn [acquire];
      rewrite ?Lock_prologue, ?TryLock_prologue; unfold prologue, logged;
      rewrite Habs, Hstat, Hdir, <- app_assoc; reflexivity.
Qed.

(** [Unlock] closes the file of the Locker and returns; it assigns to no
    field. *)
Lemma Unlock_run l s :
  Unlock l s =
  match file l with
  | None => Some (Some (errors_Wrap ErrInvalid "close failed"), l, s)
  | Some f =>
      let (c, w) := sys_close f (world s) in
      Some (match c with
            | Some e => Some (errors_Wrap e "close failed")
            | None => None
            end, l, logged s w [EvClose f c])
  end.
Proof.
  unfold Unlock, File_Close, bind, ret, call, logged.
  destruct (file l) as [f|]; [|reflexivity].
  destruct (sys_close f (world s)) as [[e|] w]; reflexivity.
Qed.

Lemma acquire_file a l s r l' s' :
  acquire a l s = Some (r, l', s') ->
  present (file l') = present (file l) || negb (present r).
Proof.
  intros H. apply acquire_cases in H as [(err & -> & ->)|(-> & Hok)].
  - cbn. now rewrite orb_false_r.
  - destruct Hok as (abs & f & _ & _ & _ & -> & _). cbn.
    now rewrite orb_true_r.
Qed.

Lemma exec_file o l s r l' s' :
  exec o l s = Some (r, l', s') ->
  present (file l') = present (file l) || acquired (o, r).
Proof.
  destruct o as [fuel| |]; cbn [exec acquired].
  - intros H. rewrite (acquire_file (ByLock fuel) _ _ _ _ _ H).
    now destruct r.
  - intros H. rewrite (acquire_file ByTryLock _ _ _ _ _ H). now destruct r.
  - rewrite Unlock_run. destruct (file l) as [f|] eqn:Hf.
    + destruct (sys_close f (world s)) as [c w]. intros [= <- <- <-].
      now rewrite Hf, orb_false_r.
    + intros [= <- <- <-]. now rewrite Hf.
Qed.

Lemma run_file ops :
  forall l s log l' s',
    run ops l s = Some (log, l', s') ->
    present (file l') = present (file l) || existsb acquired log.
Proof.
  induction ops as [|o ops IH]; intros l s log l' s'; cbn [run].
  - intros [= <- <- <-]. cbn. now rewrite orb_false_r.
  - destruct (exec o l s) as [[[r l1] s1]|] eqn:Hexec; [|discriminate].
    destruct (run ops l1 s1) as [[[log1 l2] s2]|] eqn:Hrun; [|discriminate].
    intros [= <- <- <-]. cbn [existsb].
    rewrite (IH _ _ _ _ _ Hrun), (exec_file _ _ _ _ _ _ Hexec).
    now rewrite orb_assoc.
Qed.

(** C5, as the code has it.  The file field is nil in a new Locker.  After
    any sequence of [Lock], [TryLock] and [Unlock] calls on a new Locker it
    is set exactly when one of the [Lock] or [TryLock] calls returned nil.
    [Unlock] returns the Locker as it received it, whatever the close
    answered: it does not set the field back to nil. *)
Theorem file_set_by_acquisition_only p d :
  file (New p d) = None /\
  (forall ops s log l' s',
      run ops (New p d) s = Some (log, l', s') ->
      present (file l') = existsb acquired log) /\
  (forall l s r l' s', Unlock l s = Some (r, l', s') -> l' = l).
Proof.
  split; [reflexivity|]. split.
  - intros ops s log l' s' H. now rewrite (run_file _ _ _ _ _ _ H).
  - intros l s r l' s'. rewrite Unlock_run.
    destruct (file l) as [f|]; [destruct (sys_close f (world s))|];
      now intros [= <- <- <-].
Qed.

(** C6.  On a Locker that holds a file, [Unlock] makes one call, the close
    of that file, and no fcntl call.  When the close answers an error
    [Unlock] returns it wrapped as "close failed"; in either case the
    Locker is returned as it was, the file still in it. *)
Theorem Unlock_closes_file l f s c w :
  file l = Some f ->
  sys_close f (world s) = (c, w) ->
  exists r,
    Unlock l s = Some (r, l, logged s w [EvClose f c]) /\
    Forall (fun ev => is_fcntl ev = false) [EvClose f c] /\
    (c = None -> r = None) /\
    (forall e, c = Some e -> r = Some (errors_Wrap e "close failed")).
Proof.
  intros Hf Hc. rewrite Unlock_run, Hf, Hc. eexists.
  split; [reflexivity|]. split; [now repeat constructor|].
  split; [now intros ->|now intros e ->].
Qed.

(** C7.  [Lock] has no way out of its loop but a granted request or an
    errno other than would-block.  An invocation that is refused by the
    prologue returns that refusal.  Otherwise: if every request blocks, no
    number of iterations makes [Lock] return; after [n] blocked requests,
    for any [n], [Lock] is still in its loop and returns as soon as a
    request does not block; and whenever [Lock] returns it returns nil
    after a granted request, or the errno of a refused request, which is
    not would-block. *)
Theorem Lock_retries_without_bound l s :
  (forall ref s1,
      prologue l s = (inl ref, s1) ->
      forall fuel,
        Lock fuel l s = Some (Some (refusal_error (ByLock fuel) ref), l, s1)) /\
  (forall abs f s1,
      prologue l s = (inr (abs, f), s1) ->
      ((forall n, blocked n l f (world s1) = true) ->
       forall fuel, Lock fuel l s = None) /\
      (forall n fuel,
          blocked n l f (world s1) = true ->
          Lock (n + fuel) l s =
          Lock_from_loop fuel l abs f
            (logged s1 (retry_world n l f (world s1)) (retries n l f))) /\
      (forall n fuel,
          blocked n l f (world s1) = true ->
          fst (request f (retry_world n l f (world s1))) <>
          Some EWOULDBLOCK ->
          exists r l' s', Lock (n + S fuel) l s = Some (r, l', s')) /\
      (forall fuel r l' s',
          Lock fuel l s = Some (r, l', s') ->
          exists n,
            (n < fuel)%nat /\
            blocked n l f (world s1) = true /\
            match fst (request f (retry_world n l f (world s1))) with
            | None => r = None
            | Some e =>
                e <> EWOULDBLOCK /\
                r = Some (errors_Wrap (Errno e) "lock failed")
            end)).
Proof.
  split.
  { intros ref s1 Hp fuel. now rewrite Lock_prologue, Hp. }
  intros abs f s1 Hp.
  assert (HL : forall fuel, Lock fuel l s = Lock_from_loop fuel l abs f s1).
  { intros fuel. now rewrite Lock_prologue, Hp. }
  assert (Hn : forall n fuel,
             blocked n l f (world s1) = true ->
             Lock (n + fuel) l s =
             Lock_from_loop fuel l abs f
               (logged s1 (retry_world n l f (world s1)) (retries n l f))).
  { intros n fuel Hb. rewrite HL. unfold Lock_from_loop.
    now rewrite Lock_for_blocked. }
  split; [|split; [exact Hn|split]].
  - intros Hb fuel. rewrite <- (Nat.add_0_r fuel), Hn by apply Hb.
    reflexivity.
  - intros n fuel Hb Hne. rewrite Hn by exact Hb. unfold Lock_from_loop.
    rewrite Lock_for_step. cbn [world logged].
    destruct (request f (retry_world n l f (world s1))) as [[e|] w].
    + destruct (e =? EWOULDBLOCK) eqn:He.
      * apply Z.eqb_eq in He; subst e. now destruct Hne.
      * destruct (sys_close f w). now do 3 eexists.
    + now do 3 eexists.
  - intros fuel r l' s' H. rewrite HL in H. unfold Lock_from_loop in H.
    destruct (Lock_for fuel l f s1) as [[r0 s0]|] eqn:Hfor; [|discriminate].
    apply Lock_for_trace in Hfor as (n & Hlt & Hb & Hlast).
    exists n. split; [exact Hlt|]. split; [exact Hb|]. cbn zeta in Hlast.
    destruct (request f (retry_world n l f (world s1))) as [[e|] w]; cbn [fst].
    + destruct Hlast as (He & -> & _). injection H as <- _ _. now split.
    + destruct Hlast as (-> & _). now injection H as <- _ _.
Qed.

(** C8.  [New] is a function of its two arguments and nothing else.  The
    Locker it returns has the given path, no file, and the given retry
    interval, or 250 milliseconds when the given interval is zero. *)
Theorem New_fields (p : string) (d : Duration) :
  path (New p d) = p /\
  file (New p d) = None /\
  (d <> 0 -> retryInterval (New p d) = d) /\
  (d = 0 -> retryInterval (New p d) = 250 * Millisecond).
Proof.
  unfold New. cbn. repeat split.
  - intros Hd. apply Z.eqb_neq in Hd. now rewrite Hd.
  - now intros ->.
Qed.

(** C9.  When the prologue of [TryLock] has opened the file and the lock
    request is answered an errno, [TryLock] returns an error having made
    no further call: the file is not closed, and the Locker comes back
    untouched, the file not in it.  [Lock], given an errno other than
    would-block at the same point, closes the file before it returns. *)
Theorem TryLock_leaves_file_open l s abs f s1 e w :
  prologue l s = (inr (abs, f), s1) ->
  request f (world s1) = (Some e, w) ->
  (exists err evs,
      TryLock l s = Some (Some err, l, logged s w evs) /\
      In (EvOpenFile abs O_RDWR 432 (inr f)) evs /\
      Forall (fun ev => is_close ev = false) evs) /\
  (e <> EWOULDBLOCK ->
   forall fuel,
   exists err evs c,
     Lock (S fuel) l s =
     Some (Some err, l, logged s (snd (sys_close f w)) evs) /\
     In (EvOpenFile abs O_RDWR 432 (inr f)) evs /\
     In (EvClose f c) evs).
Proof.
  intros Hp Hr.
  pose proof (prologue_opened _ _ _ _ _ Hp)
    as (fi & w1 & w2 & _ & _ & _ & _ & Ht).
  assert (Hs1 : s1 = logged s (world s1)
                       [EvAbs (path l) (inr abs); EvStat abs (inr fi);
                        EvOpenFile abs O_RDWR 432 (inr f)]).
  { clear - Ht. destruct s1 as [w1 t1]. cbn in Ht |- *. unfold logged.
    now rewrite Ht. }
  split.
  - rewrite TryLock_prologue, Hp, Hr, Hs1, logged_logged. do 2 eexists.
    split; [reflexivity|]. split; [cbn; tauto|].
    now repeat constructor.
  - intros He fuel. rewrite Lock_prologue, Hp. unfold Lock_from_loop.
    rewrite Lock_for_step, Hr. apply Z.eqb_neq in He. rewrite He.
    destruct (sys_close f w) as [c w']. rewrite Hs1, logged_logged.
    do 3 eexists. split; [reflexivity|]. split; cbn; tauto.
Qed.

(** C10.  [Unlock] on a Locker whose file is nil returns: the close
    answers [ErrInvalid] without any call being made, and [Unlock] returns
    it wrapped as "close failed". *)
Theorem Unlock_without_file l s :
  file l = None ->
  Unlock l s = Some (Some (errors_Wrap ErrInvalid "close failed"), l, s).
Proof. intros Hf. now rewrite Unlock_run, Hf. Qed.

End Properties.

(** ** Further properties of the package *)

Section Further.

Context {World : Type} {os : OS World}.

Implicit Types (l : Locker) (s : State World) (f : File) (a : attempt).

(** The calls of the prologue, refused or passed. *)
Lemma prologue_calls l s :
  match prologue l s with
  | (inl ref, s1) =>
      exists evs, s1 = logged s (world s1) evs /\ refused_calls l ref evs
  | (inr (abs, f), s1) =>
      exists fi,
        IsDir fi = false /\
        s1 = logged s (world s1) (opened_calls l abs fi f)
  end.
Proof.
  unfold prologue, logged, opened_calls.
  destruct (sys_abs (path l) (world s)) as [[e|abs] w1].
  { eexists. split; reflexivity. }
  destruct (sys_stat abs w1) as [[e|fi] w2].
  { cbn. rewrite <- app_assoc.
    destruct (os_IsNotExist e); eexists; (split; [reflexivity|]);
      now exists abs. }
  destruct (IsDir fi) eqn:Hdir.
  { cbn. rewrite <- app_assoc. eexists. split; [reflexivity|].
    now exists abs, fi. }
  destruct (sys_open abs O_RDWR 432 w2) as [[e|f] w3]; cbn;
    rewrite <- !app_assoc; cbn.
  - eexists. split; [reflexivity|]. now exists abs, fi.
  - now exists fi.
Qed.

Lemma logged_trace s w evs s1 :
  s1 = logged s w evs -> trace s1 = trace s ++ evs.
Proof. now intros ->. Qed.

(** The calls of a [Lock] that returns. *)
Lemma Lock_calls fuel l s r l' s' :
  Lock fuel l s = Some (r, l', s') ->
  (exists ref evs,
      prologue l s = (inl ref, s') /\
      r = Some (refusal_error (ByLock fuel) ref) /\ l' = l /\
      trace s' = trace s ++ evs /\ refused_calls l ref evs) \/
  (exists abs fi f s1 n,
      prologue l s = (inr (abs, f), s1) /\
      IsDir fi = false /\
      (n < fuel)%nat /\
      blocked n l f (world s1) = true /\
      ((r = None /\ l' = committed l abs f /\
        trace s' =
        trace s ++ opened_calls l abs fi f ++ retries n l f ++
        [EvFcntlFlock (Fd f) F_OFD_SETLK wrlck None]) \/
       (exists e c,
           e <> EWOULDBLOCK /\
           r = Some (errors_Wrap (Errno e) "lock failed") /\ l' = l /\
           trace s' =
           trace s ++ opened_calls l abs fi f ++ retries n l f ++
           [EvFcntlFlock (Fd f) F_OFD_SETLK wrlck (Some e); EvClose f c]))).
Proof.
  rewrite Lock_prologue. pose proof (prologue_calls l s) as Hc.
  destruct (prologue l s) as [[ref|[abs f]] s1].
  - destruct Hc as (evs & Hs1 & Hr). intros [= <- <- <-]. left.
    exists ref, evs. split; [reflexivity|]. repeat split; [|exact Hr].
    exact (logged_trace _ _ _ _ Hs1).
  - destruct Hc as (fi & Hdir & Hs1). apply logged_trace in Hs1.
    unfold Lock_from_loop.
    destruct (Lock_for fuel l f s1) as [[r0 s0]|] eqn:Hfor; [|discriminate].
    intros H. right.
    apply Lock_for_trace in Hfor as (n & Hn & Hb & Hlast).
    exists abs, fi, f, s1, n. do 4 (split; [easy|]). cbn zeta in Hlast.
    destruct (request f (retry_world n l f (world s1))) as [[e|] w'].
    + destruct Hlast as (He & -> & ->). injection H as <- <- <-. right.
      exists e, (fst (sys_close f w')). repeat split; [exact He|].
      cbn. now rewrite Hs1, <- !app_assoc.
    + destruct Hlast as (-> & ->). injection H as <- <- <-. left.
      repeat split. cbn. now rewrite Hs1, <- !app_assoc.
Qed.

(** The calls of a [TryLock]. *)
Lemma TryLock_calls l s :
  exists r l' s',
    TryLock l s = Some (r, l', s') /\
    ((exists ref evs,
         r = Some (refusal_error ByTryLock ref) /\ l' = l /\
         trace s' = trace s ++ evs /\ refused_calls l ref evs) \/
     (exists abs fi f s1 ans,
         prologue l s = (inr (abs, f), s1) /\
         IsDir fi = false /\
         ans = fst (request f (world s1)) /\
         trace s' =
         trace s ++ opened_calls l abs fi f ++
         [EvFcntlFlock (Fd f) F_OFD_SETLK wrlck ans] /\
         match ans with
         | None => r = None /\ l' = committed l abs f
         | Some e =>
             l' = l /\
             r = Some (if (e =? EAGAIN) || (e =? EWOULDBLOCK)
                       then ErrLockLocked else Errno e)
         end)).
Proof.
  rewrite TryLock_prologue. pose proof (prologue_calls l s) as Hc.
  destruct (prologue l s) as [[ref|[abs f]] s1].
  - destruct Hc as (evs & Hs1 & Hr). do 3 eexists. split; [reflexivity|].
    left. exists ref, evs. repeat split; [|exact Hr].
    exact (logged_trace _ _ _ _ Hs1).
  - destruct Hc as (fi & Hdir & Hs1). apply logged_trace in Hs1.
    destruct (request f (world s1)) as [ans w] eqn:Hreq.
    destruct ans as [e|]; do 3 eexists; (split; [reflexivity|]); right;
      eexists abs, fi, f, s1, _; (split; [reflexivity|]);
      (split; [exact Hdir|]); (split; [reflexivity|]).
    all: cbn [fst trace logged]; rewrite Hreq, Hs1, <- app_assoc;
      now repeat split.
Qed.

Lemma retries_kinds n l f :
  Forall (fun ev => is_open ev = false /\ is_close ev = false)
    (retries n l f) /\
  length (filter is_fcntl (retries n l f)) = n /\
  length (filter is_sleep (retries n l f)) = n /\
  slept (retries n l f) = Z.of_nat n * retryInterval l.
Proof.
  induction n as [|n (IH1 & IH2 & IH3 & IH4)].
  - cbn. split; [constructor|]. repeat split; lia.
  - cbn [retries filter is_fcntl is_sleep slept length].
    split; [now repeat constructor|].
    split; [congruence|]. split; [congruence|lia].
Qed.

Lemma slept_app evs evs' : slept (evs ++ evs') = slept evs + slept evs'.
Proof.
  induction evs as [|ev evs IH]; [reflexivity|].
  destruct ev; cbn; lia.
Qed.

Lemma refused_calls_no_file l ref evs name flag perm f :
  refused_calls l ref evs -> ~ In (EvOpenFile name flag perm (inr f)) evs.
Proof.
  destruct ref; cbn.
  - intros -> [H|[]]; discriminate.
  - intros (abs & ->) [H|[H|[]]]; discriminate.
  - intros (abs & ->) [H|[H|[]]]; discriminate.
  - intros (abs & fi & _ & ->) [H|[H|[]]]; discriminate.
  - intros (abs & fi & _ & ->) [H|[H|[H|[]]]]; discriminate.
Qed.

(** X1.  When the open fails, [Lock] and [TryLock] return its error
    wrapped as "open failed", after the three calls listed: no lock
    request is made and the Locker is untouched. *)
Theorem open_failure a l s abs w1 fi w2 e w3 :
  sys_abs (path l) (world s) = (inr abs, w1) ->
  sys_stat abs w1 = (inr fi, w2) ->
  IsDir fi = false ->
  sys_open abs O_RDWR 432 w2 = (inl e, w3) ->
  acquire a l s =
  Some (Some (errors_Wrap e "open failed"), l,
        logged s w3 [EvAbs (path l) (inr abs); EvStat abs (inr fi);
                     EvOpenFile abs O_RDWR 432 (inl e)]).
Proof.
  intros Habs Hstat Hdir Hopen.
  destruct a as [fuel|]; cbn [acquire];
    rewrite ?Lock_prologue, ?TryLock_prologue; unfold prologue, logged;
    rewrite Habs, Hstat, Hdir, Hopen, <- !app_assoc; reflexivity.
Qed.

(** X2.  [Lock] does not lose a descriptor.  When it returns nil it has
    made no close call and the file it opened is in the Locker; when it
    returns an error, any file it opened is closed by its last call. *)
Theorem Lock_closes_what_it_opened fuel l s r l' s' evs :
  Lock fuel l s = Some (r, l', s') ->
  trace s' = trace s ++ evs ->
  (r = None ->
   Forall (fun ev => is_close ev = false) evs /\
   exists abs f,
     file l' = Some f /\ In (EvOpenFile abs O_RDWR 432 (inr f)) evs) /\
  (r <> None ->
   forall name flag perm f,
     In (EvOpenFile name flag perm (inr f)) evs ->
     exists pre c, evs = pre ++ [EvClose f c]).
Proof.
  intros H Ht.
  apply Lock_calls in H
    as [(ref & evs0 & _ & -> & -> & Ht0 & Hr)
       |(abs & fi & f & s1 & n & _ & _ & _ & _ & Hend)].
  - rewrite Ht in Ht0. apply app_inv_head in Ht0. subst evs0.
    split; [discriminate|]. intros _ name flag perm f Hin.
    now apply (refused_calls_no_file _ _ _ _ _ _ _ Hr) in Hin.
  - pose proof (retries_kinds n l f) as (Hk & _).
    destruct Hend as [(-> & -> & Ht0)|(e & c & _ & -> & -> & Ht0)];
      rewrite Ht in Ht0; apply app_inv_head in Ht0; subst evs.
    + split; [intros _|now intros []]. split.
      * repeat constructor. apply Forall_app. split; [|now repeat constructor].
        eapply Forall_impl; [|exact Hk]. now intros ev [_ Hc].
      * exists abs, f. split; [reflexivity|]. cbn. tauto.
    + split; [discriminate|]. intros _ name flag perm f' Hin.
      assert (f' = f) as ->.
      { cbn in Hin. destruct Hin as [Hin|[Hin|[Hin|Hin]]]; try discriminate.
        - now injection Hin.
        - apply in_app_or in Hin as [Hin|[Hin|[Hin|[]]]]; try discriminate.
          rewrite Forall_forall in Hk. apply Hk in Hin as [Ho _].
          discriminate. }
      exists (opened_calls l abs fi f ++ retries n l f ++
              [EvFcntlFlock (Fd f) F_OFD_SETLK wrlck (Some e)]), c.
      now rewrite <- !app_assoc.
Qed.

(** X3.  A [Lock] that reached its loop and returned after [n] blocked
    requests made [n + 1] lock requests and [n] sleeps, [n] times
    [retryInterval] in all; when its first request does not block it does
    not sleep. *)
Theorem Lock_sleeps_between_requests fuel l s abs f s1 r l' s' evs :
  prologue l s = (inr (abs, f), s1) ->
  Lock fuel l s = Some (r, l', s') ->
  trace s' = trace s ++ evs ->
  exists n,
    (n < fuel)%nat /\
    blocked n l f (world s1) = true /\
    length (filter is_fcntl evs) = S n /\
    length (filter is_sleep evs) = n /\
    slept evs = Z.of_nat n * retryInterval l /\
    (fst (request f (world s1)) <> Some EWOULDBLOCK -> slept evs = 0).
Proof.
  intros Hp H Ht.
  apply Lock_calls in H
    as [(ref & evs0 & Hp' & _)
       |(abs' & fi & f' & s1' & n & Hp' & _ & Hn & Hb & Hend)].
  { rewrite Hp in Hp'. discriminate. }
  rewrite Hp in Hp'. injection Hp' as <- <- <-.
  pose proof (retries_kinds n l f) as (_ & Hf & Hs & Hz).
  assert (He : evs = opened_calls l abs fi f ++ retries n l f ++
                     [EvFcntlFlock (Fd f) F_OFD_SETLK wrlck None] \/
               exists e c,
                 evs = opened_calls l abs fi f ++ retries n l f ++
                       [EvFcntlFlock (Fd f) F_OFD_SETLK wrlck (Some e);
                        EvClose f c]).
  { destruct Hend as [(_ & _ & Ht0)|(e & c & _ & _ & _ & Ht0)];
      rewrite Ht in Ht0; apply app_inv_head in Ht0;
      [now left|right; now exists e, c]. }
  assert (Hcount : length (filter is_fcntl evs) = S n /\
                   length (filter is_sleep evs) = n /\
                   slept evs = Z.of_nat n * retryInterval l).
  { destruct He as [->|(e & c & ->)];
      rewrite !filter_app, !length_app, !slept_app, Hf, Hs, Hz; cbn;
      repeat split; lia. }
  destruct Hcount as (H1 & H2 & H3).
  exists n. do 5 (split; [easy|]). intros Hne. rewrite H3.
  destruct n as [|n]; [reflexivity|]. cbn [blocked] in Hb.
  destruct (fst (request f (world s1))) as [e|]; [|discriminate].
  apply andb_prop in Hb as [He' _]. apply Z.eqb_eq in He'. now subst e.
Qed.

(** X4.  [TryLock] always returns, after at most four calls, of which at
    most one is a lock request and none is a sleep or a close. *)
Theorem TryLock_returns_at_once l s :
  exists r l' s' evs,
    TryLock l s = Some (r, l', s') /\
    trace s' = trace s ++ evs /\
    (length evs <= 4)%nat /\
    (length (filter is_fcntl evs) <= 1)%nat /\
    Forall (fun ev => is_sleep ev = false /\ is_close ev = false) evs.
Proof.
  destruct (TryLock_calls l s) as (r & l' & s' & H & Hc).
  exists r, l', s'.
  destruct Hc as [(ref & evs & _ & _ & Ht & Hr)
                 |(abs & fi & f & s1 & ans & _ & _ & _ & Ht & _)].
  - exists evs. split; [exact H|]. split; [exact Ht|].
    destruct ref; cbn in Hr;
      [|destruct Hr as (abs & ->)|destruct Hr as (abs & ->)
       |destruct Hr as (abs & fi & _ & ->)
       |destruct Hr as (abs & fi & _ & ->)]; subst; cbn;
      (split; [lia|]); (split; [lia|]); now repeat constructor.
  - eexists. split; [exact H|]. split; [exact Ht|]. cbn.
    split; [lia|]. split; [lia|]. now repeat constructor.
Qed.

(** X5.  [TryLock] returns [ErrLockLocked] exactly when the first
    iteration of [Lock] would go to sleep instead of returning. *)
Theorem TryLock_locked_iff_Lock_waits l s :
  (exists s', TryLock l s = Some (Some ErrLockLocked, l, s')) <->
  Lock 1 l s = None.
Proof.
  rewrite TryLock_prologue, Lock_prologue.
  destruct (prologue l s) as [[ref|[abs f]] s1].
  - split; [|discriminate]. intros (s' & H).
    destruct ref; discriminate.
  - unfold Lock_from_loop. rewrite Lock_for_step.
    destruct (request f (world s1)) as [[e|] w].
    + change (e =? EAGAIN) with (e =? EWOULDBLOCK). rewrite orb_diag.
      destruct (e =? EWOULDBLOCK).
      * split; [reflexivity|]. intros _. now eexists.
      * destruct (sys_close f w). split; [|discriminate].
        intros (s' & H). discriminate.
    + split; [|discriminate]. intros (s' & H). discriminate.
Qed.

Lemma Lock_for_with_file fuel l (f0 : option File) f :
  forall s, Lock_for fuel (with_file l f0) f s = Lock_for fuel l f s.
Proof.
  induction fuel as [|fuel IH]; intros s; [reflexivity|].
  rewrite !Lock_for_step. cbn [with_file retryInterval].
  destruct (request f (world s)) as [[e|] w]; [|reflexivity].
  destruct (e =? EWOULDBLOCK); [apply IH|reflexivity].
Qed.

(** X6.  An attempt does not look at the file field.  On a Locker that
    already holds a file it makes the same calls and returns the same
    error as on one that holds none; on success the file held before is
    replaced by the one just opened. *)
Theorem acquire_ignores_file a l (f0 : option File) s :
  acquire a (with_file l f0) s =
  match acquire a l s with
  | None => None
  | Some (None, l', s') => Some (None, l', s')
  | Some (Some err, _, s') => Some (Some err, with_file l f0, s')
  end.
Proof.
  assert (Hp : prologue (with_file l f0) s = prologue l s) by reflexivity.
  destruct a as [fuel|]; cbn [acquire].
  - rewrite !Lock_prologue, Hp.
    destruct (prologue l s) as [[ref|[abs f]] s1]; [reflexivity|].
    unfold Lock_from_loop. rewrite Lock_for_with_file.
    now destruct (Lock_for fuel l f s1) as [[[err|] s']|].
  - rewrite !TryLock_prologue, Hp.
    destruct (prologue l s) as [[ref|[abs f]] s1]; [reflexivity|].
    now destruct (request f (world s1)) as [[e|] w].
Qed.

Lemma run_retryInterval ops :
  forall l s log l' s',
    run ops l s = Some (log, l', s') -> retryInterval l' = retryInterval l.
Proof.
  induction ops as [|o ops IH]; intros l s log l' s'; cbn [run].
  - now intros [= <- <- <-].
  - destruct (exec o l s) as [[[r l1] s1]|] eqn:Hexec; [|discriminate].
    destruct (run ops l1 s1) as [[[log1 l2] s2]|] eqn:Hrun; [|discriminate].
    intros [= <- <- <-]. rewrite (IH _ _ _ _ _ Hrun).
    destruct o as [fuel| |]; cbn [exec] in Hexec.
    + apply (acquire_cases (ByLock fuel)) in Hexec
        as [(err & _ & ->)|(_ & abs & f & _ & _ & _ & -> & _)]; reflexivity.
    + apply (acquire_cases ByTryLock) in Hexec
        as [(err & _ & ->)|(_ & abs & f & _ & _ & _ & -> & _)]; reflexivity.
    + rewrite Unlock_run in Hexec.
      destruct (file l) as [f|]; [destruct (sys_close f (world s))|];
        now injection Hexec as _ <- _.
Qed.

(** X7.  The retry interval is set by [New] and by nothing else: after
    any sequence of [Lock], [TryLock] and [Unlock] calls on a new Locker
    it is the interval [New] chose, and it is not zero. *)
Theorem retryInterval_kept ops p d s log l' s' :
  run ops (New p d) s = Some (log, l', s') ->
  retryInterval l' = (if d =? 0 then defaultRetryInterval else d) /\
  retryInterval l' <> 0.
Proof.
  intros H. apply run_retryInterval in H. rewrite H. unfold New. cbn.
  destruct (d =? 0) eqn:Hd; split; try reflexivity.
  - discriminate.
  - now apply Z.eqb_neq.
Qed.

Lemma retries_loop_calls n l f :
  Forall (fun ev => is_fcntl ev || is_close ev || is_sleep ev = true)
    (retries n l f).
Proof.
  induction n as [|n IH]; cbn [retries]; now repeat constructor.
Qed.

(** X8.  The calls of an attempt that returns.  It resolves the
    configured path; it stats the resolved path; if stat succeeds and does
    not report a directory it opens the resolved path, read-write and with
    mode 0660; and if the open succeeds, what follows is lock requests,
    sleeps and a close, and nothing else.  An attempt refused on the way
    stops there and returns the error of that refusal. *)
Theorem attempt_calls a l s r l' s' evs :
  acquire a l s = Some (r, l', s') ->
  trace s' = trace s ++ evs ->
  (exists ref, refused_calls l ref evs /\ r = Some (refusal_error a ref)) \/
  (exists abs fi f rest,
      IsDir fi = false /\
      evs = opened_calls l abs fi f ++ rest /\
      rest <> [] /\
      Forall (fun ev => is_fcntl ev || is_close ev || is_sleep ev = true)
        rest).
Proof.
  intros H Ht. destruct a as [fuel|]; cbn [acquire] in H.
  - apply Lock_calls in H
      as [(ref & evs0 & _ & -> & _ & Ht0 & Hr)
         |(abs & fi & f & s1 & n & _ & Hdir & _ & _ & Hend)].
    { rewrite Ht in Ht0. apply app_inv_head in Ht0. subst evs0.
      left. now exists ref. }
    right. exists abs, fi, f.
    destruct Hend as [(_ & _ & Ht0)|(e & c & _ & _ & _ & Ht0)];
      rewrite Ht in Ht0; apply app_inv_head in Ht0; subst evs;
      eexists; (split; [exact Hdir|]); (split; [reflexivity|]);
      (split; [now destruct (retries n l f)|]);
      (apply Forall_app; split; [apply retries_loop_calls|]);
      now repeat constructor.
  - destruct (TryLock_calls l s) as (r0 & l0 & s0 & H0 & Hc).
    rewrite H in H0. injection H0 as <- <- <-.
    destruct Hc as [(ref & evs0 & -> & _ & Ht0 & Hr)
                   |(abs & fi & f & s1 & ans & _ & Hdir & _ & Ht0 & _)];
      rewrite Ht in Ht0; apply app_inv_head in Ht0; subst evs.
    + left. now exists ref.
    + right. exists abs, fi, f. eexists. split; [exact Hdir|].
      split; [reflexivity|]. split; [discriminate|]. now repeat constructor.
Qed.

(** X9.  Every error [Lock] returns is made by pkg/errors, with a message
    of the package around the cause: [Lock] returns neither a bare errno
    nor [ErrLockLocked]. *)
Theorem Lock_errors_are_wrapped fuel l s err l' s' :
  Lock fuel l s = Some (Some err, l', s') ->
  is_pkg_error err = true /\ err <> ErrLockLocked.
Proof.
  intros H.
  apply Lock_calls in H
    as [(ref & evs0 & _ & [= ->] & _)
       |(abs & fi & f & s1 & n & _ & _ & _ & _ & Hend)].
  - destruct ref; split; (reflexivity || discriminate).
  - destruct Hend as [([=] & _)|(e & c & _ & [= ->] & _)].
    split; (reflexivity || discriminate).
Qed.

(** X10.  An error of [TryLock] is made by pkg/errors exactly when no lock
    request was made: the error of a failed lock request comes back bare,
    as [ErrLockLocked] or as the errno itself. *)
Theorem TryLock_request_errors_are_bare l s err l' s' evs :
  TryLock l s = Some (Some err, l', s') ->
  trace s' = trace s ++ evs ->
  existsb is_fcntl evs = negb (is_pkg_error err).
Proof.
  intros H Ht. destruct (TryLock_calls l s) as (r0 & l0 & s0 & H0 & Hc).
  rewrite H in H0. injection H0 as <- <- <-.
  destruct Hc as [(ref & evs0 & [= ->] & _ & Ht0 & Hr)
                 |(abs & fi & f & s1 & ans & _ & _ & _ & Ht0 & Hans)];
    rewrite Ht in Ht0; apply app_inv_head in Ht0; subst evs.
  - destruct ref; cbn in Hr;
      [|destruct Hr as (abs & ->)|destruct Hr as (abs & ->)
       |destruct Hr as (abs & fi & _ & ->)
       |destruct Hr as (abs & fi & _ & ->)]; subst; reflexivity.
  - destruct ans as [e|]; [|now destruct Hans as ([=] & _)].
    destruct Hans as (_ & [= ->]).
    now destruct ((e =? EAGAIN) || (e =? EWOULDBLOCK)).
Qed.

(** X11.  [Unlock] has no guard against a second call: two [Unlock]
    calls in a row on a Locker that holds a file both call Close on that
    same file, and the Locker is the same after them. *)
Theorem Unlock_twice_closes_twice l f s :
  file l = Some f ->
  exists r1 r2 c1 c2 w,
    run [OpUnlock; OpUnlock] l s =
    Some ([(OpUnlock, r1); (OpUnlock, r2)], l,
          logged s w [EvClose f c1; EvClose f c2]).
Proof.
  intros Hf. cbn [run exec]. rewrite Unlock_run, Hf.
  destruct (sys_close f (world s)) as [c1 w1].
  rewrite Unlock_run, Hf. cbn [world logged].
  destruct (sys_close f w1) as [c2 w2]. rewrite logged_logged.
  now do 5 eexists.
Qed.

(** X12.  As long as no [Lock] or [TryLock] on a new Locker has returned
    nil, [Unlock] on it makes no call and returns [ErrInvalid] wrapped as
    "close failed". *)
Theorem Unlock_before_acquisition ops p d s log l' s' :
  run ops (New p d) s = Some (log, l', s') ->
  existsb acquired log = false ->
  Unlock l' s' = Some (Some (errors_Wrap ErrInvalid "close failed"), l', s').
Proof.
  intros H Hlog. apply run_file in H. cbn in H. rewrite Hlog in H.
  rewrite Unlock_run. now destruct (file l').
Qed.



End Further.

(** ** Runs on the reference kernel *)

Import Kernel.

(** While the other process never releases, every request blocks. *)
Lemma waiting_blocked n :
  forall t, blocked n x_lock x_file (waiting t) = true.
Proof.
  induction n as [|n IH]; intros t; [reflexivity|].
  cbn [blocked]. change (request x_file (waiting t))
    with (Some EAGAIN, waiting t).
  cbn [fst snd]. exact (IH (t + 250000000)).
Qed.

(** The three ways an iteration can go: granted on the idle machine,
    blocked while another process holds the lock, refused when the lock
    table is full. *)
Lemma Lock_request_loop_witness :
  Lock_from_loop 1 x_lock x_abs x_file (opened idle) =
  Some (None, x_locked,
        logged (opened idle) (snd (request x_file (world (opened idle))))
          [EvFcntlFlock 3 37 wrlck None]) /\
  Lock_from_loop 2 x_lock x_abs x_file (opened (contended None)) =
  Lock_from_loop 1 x_lock x_abs x_file
    (logged (opened (contended None)) (waiting 250000000)
       [EvFcntlFlock 3 37 wrlck (Some 11); EvSleep 250000000]) /\
  Lock_from_loop 1 x_lock x_abs x_file (opened exhausted) =
  Some (Some (errors_Wrap (Errno 37) "lock failed"), x_lock,
        logged (opened exhausted)
          (snd (close x_file (world (opened exhausted))))
          [EvFcntlFlock 3 37 wrlck (Some 37); EvClose x_file None]).
Proof.
  pose proof (Lock_request_loop x_lock (boot idle) x_abs x_file (opened idle))
    as H.
  destruct H as (_ & Hg & Hb & He & _); [vm_compute; reflexivity|].
  split; [|split].
  - apply (Hg 0%nat). vm_compute; reflexivity.
  - apply (Hb 1%nat (opened (contended None)) (waiting 0)).
    vm_compute; reflexivity.
  - apply (He 0%nat (opened exhausted) 37 (world (opened exhausted))).
    + vm_compute; reflexivity.
    + discriminate.
Defined.

(** [TryLock] on a directory, on a held lock, with a full lock table and
    on the idle machine. *)
Lemma TryLock_one_request_witness :
  (TryLock (New "dir" 0) (boot idle) =
   Some (Some (errors_New "directories are not allowed"), New "dir" 0,
         snd (prologue (New "dir" 0) (boot idle))) /\
   Lock 7 (New "dir" 0) (boot idle) =
   Some (Some (errors_New "directory not allowed"), New "dir" 0,
         snd (prologue (New "dir" 0) (boot idle)))) /\
  (exists s, TryLock x_lock (boot (contended None)) =
             Some (Some ErrLockLocked, x_lock, s)) /\
  (exists s, TryLock x_lock (boot exhausted) =
             Some (Some (Errno ENOLCK), x_lock, s)) /\
  (exists s, TryLock x_lock (boot idle) = Some (None, x_locked, s)) /\
  Lock 1 x_lock (boot idle) = TryLock x_lock (boot idle).
Proof.
  split; [|split; [|split; [|split]]].
  - destruct (proj1 (TryLock_one_request (New "dir" 0) (boot idle))
                IsDirectory (snd (prologue (New "dir" 0) (boot idle))))
      as [HT HL]; [vm_compute; reflexivity|].
    split; [exact HT|exact (HL 7%nat)].
  - destruct (proj2 (TryLock_one_request x_lock (boot (contended None)))
                x_abs x_file (opened (contended None)) (Some EAGAIN)
                (waiting 0))
      as (_ & res & l' & HT & Hb & _);
      [vm_compute; reflexivity|vm_compute; reflexivity|].
    destruct (Hb EAGAIN eq_refl (or_introl eq_refl)) as [-> ->].
    eexists. exact HT.
  - destruct (proj2 (TryLock_one_request x_lock (boot exhausted))
                x_abs x_file (opened exhausted) (Some ENOLCK)
                (world (opened exhausted)))
      as (_ & res & l' & HT & _ & He & _);
      [vm_compute; reflexivity|vm_compute; reflexivity|].
    destruct (He ENOLCK eq_refl) as (-> & _ & ->); [discriminate..|].
    eexists. exact HT.
  - destruct (proj2 (TryLock_one_request x_lock (boot idle))
                x_abs x_file (opened idle) None
                (snd (request x_file (world (opened idle)))))
      as (_ & res & l' & HT & _ & _ & Hok);
      [vm_compute; reflexivity|vm_compute; reflexivity|].
    destruct (Hok eq_refl) as (-> & -> & _). eexists. exact HT.
  - destruct (proj2 (TryLock_one_request x_lock (boot idle))
                x_abs x_file (opened idle) None
                (snd (request x_file (world (opened idle)))))
      as (_ & res & l' & _ & _ & _ & Hok);
      [vm_compute; reflexivity|vm_compute; reflexivity|].
    destruct (Hok eq_refl) as (_ & _ & HL). exact (HL 0%nat).
Defined.

(** A contended [TryLock] keeps the relative path; a [Lock] that gets the
    lock at its third request stores the absolute one. *)
Lemma failed_attempt_keeps_path_witness :
  (exists err l' s',
      TryLock x_lock (boot (contended None)) = Some (Some err, l', s') /\
      path l' = "x.lock") /\
  (exists l' s' fi evs,
      Lock 3 x_lock (boot (contended (Some 400000000))) = Some (None, l', s') /\
      path l' = "/run/x.lock" /\
      trace s' =
      [EvAbs "x.lock" (inr x_abs); EvStat x_abs (inr fi);
       EvOpenFile x_abs O_RDWR 432 (inr x_file)] ++
      evs ++ [EvFcntlFlock 3 37 wrlck None]).
Proof.
  split.
  - do 3 eexists. split; [vm_compute; reflexivity|].
    refine (proj1 (proj1 (failed_attempt_keeps_path ByTryLock x_lock
                            (boot (contended None)) _ _ _ _) _ eq_refl)).
    vm_compute; reflexivity.
  - assert (HL : Lock 3 x_lock (boot (contended (Some 400000000))) =
                 Some (None, x_locked,
                       after [OpLock 3] (contended (Some 400000000))))
      by (vm_compute; reflexivity).
    destruct (proj2 (failed_attempt_keeps_path (ByLock 3) x_lock
                       (boot (contended (Some 400000000))) _ _ _ HL) eq_refl)
      as (abs & fi & f & evs & Hp & Hf & _ & Ht).
    cbn in Hp, Hf. subst abs. injection Hf as <-.
    exists x_locked, (after [OpLock 3] (contended (Some 400000000))), fi, evs.
    split; [exact HL|]. split; [reflexivity|exact Ht].
Defined.

(** An unreadable working directory, a missing file, a file that cannot
    be examined, and a directory. *)
Lemma precondition_failures_witness :
  (exists msg s,
      Lock 1 x_lock (boot lost) =
      Some (Some (errors_Wrap (Errno ENOENT) msg), x_lock, s)) /\
  (exists s,
      TryLock (New "none" 0) (boot idle) =
      Some (Some (errors_Wrap (PathError "stat" "/run/none" (Errno ENOENT))
                    "path doesn't exist"), New "none" 0, s) /\
      existsb is_open (trace s) = false) /\
  (exists s,
      TryLock (New "hidden" 0) (boot idle) =
      Some (Some (errors_Wrap (PathError "stat" "/run/hidden" (Errno EACCES))
                    "stat failed"), New "hidden" 0, s) /\
      existsb is_open (trace s) = false) /\
  (exists msg s,
      Lock 1 (New "/run/dir" 0) (boot idle) =
      Some (Some (errors_New msg), New "/run/dir" 0, s) /\
      existsb is_open (trace s) = false).
Proof.
  split; [|split; [|split]].
  - destruct (proj1 (precondition_failures (ByLock 1) x_lock (boot lost))
                (Errno ENOENT) lost) as (msg & H); [vm_compute; reflexivity|].
    exists msg. eexists. exact H.
  - eexists. split.
    + apply (proj1 (proj2 (precondition_failures ByTryLock (New "none" 0)
                             (boot idle)))
               "/run/none" idle
               (PathError "stat" "/run/none" (Errno ENOENT)) idle);
        vm_compute; reflexivity.
    + reflexivity.
  - eexists. split.
    + apply (proj1 (proj2 (precondition_failures ByTryLock (New "hidden" 0)
                             (boot idle)))
               "/run/hidden" idle
               (PathError "stat" "/run/hidden" (Errno EACCES)) idle);
        vm_compute; reflexivity.
    + reflexivity.
  - destruct (proj2 (proj2 (precondition_failures (ByLock 1)
                              (New "/run/dir" 0) (boot idle)))
                "/run/dir" idle {| IsDir := true |} idle)
      as (msg & H); [vm_compute; reflexivity..|].
    exists msg. eexists. split; [exact H|reflexivity].
Defined.

(** C5 fails on the code.  A Locker locks x.lock and unlocks it, both
    calls returning nil: the kernel then has neither the lock nor the open
    file, and the file field of the Locker is still set. *)
Lemma file_kept_after_Unlock :
  exists s1 s2,
    Lock 1 x_lock (boot idle) = Some (None, x_locked, s1) /\
    Unlock x_locked s1 = Some (None, x_locked, s2) /\
    file x_locked = Some x_file /\
    ofd_locks (world s2) = [] /\
    open_files (world s2) = [].
Proof.
  exists (after [OpLock 1] idle), (after [OpLock 1; OpUnlock] idle).
  repeat split; vm_compute; reflexivity.
Qed.

(** The field stays set through two releases once [TryLock] succeeded,
    and stays nil when it did not. *)
Lemma file_set_by_acquisition_only_witness :
  file (New "x.lock" 0) = None /\
  (exists log l' s',
      run [OpTryLock; OpUnlock; OpUnlock] x_lock (boot idle) =
      Some (log, l', s') /\
      present (file l') = true) /\
  (exists log l' s',
      run [OpTryLock; OpUnlock] x_lock (boot (contended None)) =
      Some (log, l', s') /\
      present (file l') = false).
Proof.
  destruct (file_set_by_acquisition_only (World := World) "x.lock" 0)
    as (Hnew & Hrun & _).
  split; [exact Hnew|]. split.
  - do 3 eexists. split; [vm_compute; reflexivity|].
    erewrite (Hrun [OpTryLock; OpUnlock; OpUnlock] (boot idle));
      [|vm_compute; reflexivity].
    reflexivity.
  - do 3 eexists. split; [vm_compute; reflexivity|].
    erewrite (Hrun [OpTryLock; OpUnlock] (boot (contended None)));
      [|vm_compute; reflexivity].
    reflexivity.
Defined.

(** A first [Unlock] closes the file, and with it the kernel drops the
    lock; a second one gets the close error of the closed file, wrapped. *)
Lemma Unlock_closes_file_witness :
  (Unlock x_locked (after [OpLock 1] idle) =
   Some (None, x_locked,
         logged (after [OpLock 1] idle)
           (world (after [OpLock 1; OpUnlock] idle))
           [EvClose x_file None]) /\
   ofd_locks (world (after [OpLock 1] idle)) = [(x_abs, 3)] /\
   ofd_locks (world (after [OpLock 1; OpUnlock] idle)) = []) /\
  (exists s,
      Unlock x_locked (after [OpLock 1; OpUnlock] idle) =
      Some (Some (errors_Wrap (PathError "close" x_abs ErrClosed)
                    "close failed"), x_locked, s)).
Proof.
  split.
  - destruct (Unlock_closes_file x_locked x_file (after [OpLock 1] idle) None
                (world (after [OpLock 1; OpUnlock] idle)))
      as (r & H & _ & Hok & _); [vm_compute; reflexivity..|].
    rewrite (Hok eq_refl) in H. split; [exact H|]. split; reflexivity.
  - destruct (Unlock_closes_file x_locked x_file
                (after [OpLock 1; OpUnlock] idle)
                (Some (PathError "close" x_abs ErrClosed))
                (world (after [OpLock 1; OpUnlock] idle)))
      as (r & H & _ & _ & Herr); [vm_compute; reflexivity..|].
    rewrite (Herr _ eq_refl) in H. eexists. exact H.
Defined.

(** Against a holder that never releases [Lock] does not return; against
    one that releases after 600ms it returns within four requests. *)
Lemma Lock_retries_without_bound_witness :
  (forall fuel, Lock fuel x_lock (boot (contended None)) = None) /\
  (exists r l' s',
      Lock 4 x_lock (boot (contended (Some 600000000))) = Some (r, l', s')).
Proof.
  split.
  - destruct (proj2 (Lock_retries_without_bound x_lock
                       (boot (contended None)))
                x_abs x_file (opened (contended None)))
      as (Hforever & _); [vm_compute; reflexivity|].
    apply Hforever. intros n.
    change (world (opened (contended None))) with (waiting 0).
    apply waiting_blocked.
  - destruct (proj2 (Lock_retries_without_bound x_lock
                       (boot (contended (Some 600000000))))
                x_abs x_file (opened (contended (Some 600000000))))
      as (_ & _ & Hreturns & _); [vm_compute; reflexivity|].
    apply (Hreturns 3%nat 0%nat).
    + vm_compute; reflexivity.
    + vm_compute. discriminate.
Defined.

(** The default interval, and an interval taken as given. *)
Lemma New_fields_witness :
  retryInterval (New "x.lock" 0) = 250000000 /\
  retryInterval (New "x.lock" (-5)) = -5.
Proof.
  split.
  - exact (proj2 (proj2 (proj2 (New_fields "x.lock" 0))) eq_refl).
  - apply (proj1 (proj2 (proj2 (New_fields "x.lock" (-5))))). discriminate.
Defined.

(** With a full lock table [TryLock] leaves descriptor 3 open in the
    kernel, and [Lock] leaves none. *)
Lemma TryLock_leaves_file_open_witness :
  (exists err evs,
      TryLock x_lock (boot exhausted) =
      Some (Some err, x_lock,
            logged (boot exhausted) (world (opened exhausted)) evs) /\
      open_files (world (opened exhausted)) = [(3, x_abs)]) /\
  (exists err evs,
      Lock 1 x_lock (boot exhausted) =
      Some (Some err, x_lock,
            logged (boot exhausted)
              (snd (close x_file (world (opened exhausted)))) evs) /\
      open_files (snd (close x_file (world (opened exhausted)))) = []).
Proof.
  destruct (TryLock_leaves_file_open x_lock (boot exhausted) x_abs x_file
              (opened exhausted) ENOLCK (world (opened exhausted)))
    as [(err & evs & HT & _) HL]; [vm_compute; reflexivity..|].
  split.
  - exists err, evs. split; [exact HT|reflexivity].
  - destruct (HL ltac:(discriminate) 0%nat) as (err' & evs' & c & H & _).
    exists err', evs'. split; [exact H|reflexivity].
Defined.

(** [Unlock] on a new Locker. *)
Lemma Unlock_without_file_witness :
  Unlock x_lock (boot idle) =
  Some (Some (errors_Wrap ErrInvalid "close failed"), x_lock, boot idle).
Proof. apply Unlock_without_file. reflexivity. Defined.

(** ** Further runs on the reference kernel *)

(** [TryLock] on a file that cannot be opened for writing. *)
Lemma open_failure_witness :
  TryLock (New "ro.lock" 0) (boot idle) =
  Some (Some (errors_Wrap (PathError "open" "/run/ro.lock" (Errno EACCES))
                "open failed"), New "ro.lock" 0,
        logged (boot idle) idle
          [EvAbs "ro.lock" (inr "/run/ro.lock");
           EvStat "/run/ro.lock" (inr {| IsDir := false |});
           EvOpenFile "/run/ro.lock" O_RDWR 432
             (inl (PathError "open" "/run/ro.lock" (Errno EACCES)))]).
Proof.
  apply (open_failure ByTryLock (New "ro.lock" 0) (boot idle) "/run/ro.lock"
           idle {| IsDir := false |} idle
           (PathError "open" "/run/ro.lock" (Errno EACCES)) idle);
    vm_compute; reflexivity.
Defined.

(** A granted [Lock] closes nothing; a [Lock] refused by a full lock table
    ends with the close of the file it opened. *)
Lemma Lock_closes_what_it_opened_witness :
  Forall (fun ev => is_close ev = false) (trace (after [OpLock 1] idle)) /\
  exists pre c, trace (after [OpLock 1] exhausted) = pre ++ [EvClose x_file c].
Proof.
  split.
  - destruct (Lock_closes_what_it_opened 1 x_lock (boot idle) None x_locked
                (after [OpLock 1] idle) (trace (after [OpLock 1] idle)))
      as [Hok _]; [vm_compute; reflexivity..|].
    exact (proj1 (Hok eq_refl)).
  - destruct (Lock_closes_what_it_opened 1 x_lock (boot exhausted)
                (Some (errors_Wrap (Errno ENOLCK) "lock failed")) x_lock
                (after [OpLock 1] exhausted)
                (trace (after [OpLock 1] exhausted)))
      as [_ Herr]; [vm_compute; reflexivity..|].
    apply (Herr ltac:(discriminate) x_abs O_RDWR 432 x_file).
    vm_compute. do 2 right. left. reflexivity.
Defined.

(** Against a holder that releases after 600ms, [Lock] sleeps three times
    250ms. *)
Lemma Lock_sleeps_between_requests_witness :
  slept (trace (after [OpLock 4] (contended (Some 600000000)))) = 750000000.
Proof.
  destruct (Lock_sleeps_between_requests 4 x_lock
              (boot (contended (Some 600000000))) x_abs x_file
              (opened (contended (Some 600000000))) None x_locked
              (after [OpLock 4] (contended (Some 600000000)))
              (trace (after [OpLock 4] (contended (Some 600000000)))))
    as (n & _ & _ & _ & Hs & Hz & _); [vm_compute; reflexivity..|].
  vm_compute in Hs. subst n. rewrite Hz. reflexivity.
Defined.

(** Contended: [TryLock] says locked and [Lock] would wait. *)
Lemma TryLock_locked_iff_Lock_waits_witness :
  exists s', TryLock x_lock (boot (contended None)) =
             Some (Some ErrLockLocked, x_lock, s').
Proof.
  apply (proj2 (TryLock_locked_iff_Lock_waits x_lock (boot (contended None)))).
  vm_compute; reflexivity.
Defined.

(** The default interval is still there after a lock and a release. *)
Lemma retryInterval_kept_witness :
  retryInterval x_locked = 250000000.
Proof.
  apply (retryInterval_kept [OpTryLock; OpUnlock] "x.lock" 0 (boot idle)
           [(OpTryLock, None); (OpUnlock, None)] x_locked
           (after [OpTryLock; OpUnlock] idle)).
  vm_compute; reflexivity.
Defined.

(** The calls of a [Lock] on a directory and of a granted [Lock]. *)
Lemma attempt_calls_witness :
  refused_calls (New "dir" 0) IsDirectory
    (trace (snd (prologue (New "dir" 0) (boot idle)))) /\
  exists fi rest,
    trace (after [OpLock 1] idle) = opened_calls x_lock x_abs fi x_file ++ rest.
Proof.
  split.
  - destruct (attempt_calls (ByLock 1) (New "dir" 0) (boot idle)
                (Some (errors_New "directory not allowed")) (New "dir" 0)
                (snd (prologue (New "dir" 0) (boot idle)))
                (trace (snd (prologue (New "dir" 0) (boot idle)))))
      as [(ref & Hr & He)|(abs & fi & f & rest & _ & He & _)];
      [vm_compute; reflexivity..| |].
    + destruct ref; try discriminate. exact Hr.
    + vm_compute in He. discriminate.
  - destruct (attempt_calls (ByLock 1) x_lock (boot idle) None x_locked
                (after [OpLock 1] idle) (trace (after [OpLock 1] idle)))
      as [(ref & _ & He)|(abs & fi & f & rest & _ & He & _)];
      [vm_compute; reflexivity..|discriminate|].
    exists fi, rest. rewrite He. vm_compute in He.
    injection He as Habs Hfi Hf Hrest. subst abs f. reflexivity.
Defined.

(** With a full lock table [Lock] returns the errno wrapped. *)
Lemma Lock_errors_are_wrapped_witness :
  is_pkg_error (errors_Wrap (Errno ENOLCK) "lock failed") = true /\
  errors_Wrap (Errno ENOLCK) "lock failed" <> ErrLockLocked.
Proof.
  apply (Lock_errors_are_wrapped 1 x_lock (boot exhausted) _ x_lock
           (after [OpLock 1] exhausted)).
  vm_compute; reflexivity.
Defined.

(** With a full lock table [TryLock] returns the errno bare. *)
Lemma TryLock_request_errors_are_bare_witness :
  existsb is_fcntl (trace (after [OpTryLock] exhausted)) =
  negb (is_pkg_error (Errno ENOLCK)).
Proof.
  apply (TryLock_request_errors_are_bare x_lock (boot exhausted) _ x_lock
           (after [OpTryLock] exhausted));
    vm_compute; reflexivity.
Defined.

(** Two releases after a lock: two closes of descriptor 3. *)
Lemma Unlock_twice_closes_twice_witness :
  exists r1 r2 c1 c2 w,
    run [OpUnlock; OpUnlock] x_locked (after [OpLock 1] idle) =
    Some ([(OpUnlock, r1); (OpUnlock, r2)], x_locked,
          logged (after [OpLock 1] idle) w
            [EvClose x_file c1; EvClose x_file c2]).
Proof.
  apply Unlock_twice_closes_twice. reflexivity.
Defined.

(** A release after a contended [TryLock]. *)
Lemma Unlock_before_acquisition_witness :
  Unlock x_lock (after [OpTryLock] (contended None)) =
  Some (Some (errors_Wrap ErrInvalid "close failed"), x_lock,
        after [OpTryLock] (contended None)).
Proof.
  apply (Unlock_before_acquisition [OpTryLock] "x.lock" 0
           (boot (contended None)) [(OpTryLock, Some ErrLockLocked)]);
    vm_compute; reflexivity.
Defined.

